(** * vahlcode-og: the in-memory LRU cache with TTL expiry (cache.ts)
      and the font resolver's use of it (font.ts).

    The TypeScript class [LRUCache<K, V>] keeps its entries in a built-in
    [Map], whose iteration order is insertion order; the class mutates that
    map in place and reads the ambient clock [Date.now()].  The embedding
    below passes the map and the clock explicitly:

    - a JS [Map] is an association list in insertion order (oldest first);
    - [Date.now()] is a parameter [now : Z] (integral milliseconds);
    - a JS [number] used as a time or duration is [Finite z] or [Infinity];
      [maxSize] is an integer, of any sign; fractional numbers and NaN
      are outside the model;
    - a method returning [T | undefined] returns [option T];
    - a mutating method returns the cache it leaves behind. *)

From stdpp Require Import base list strings pretty.
From Stdlib Require Import ZArith Lia.
From Stdlib Require Import Ascii.

Local Open Scope Z_scope.

(** ** JavaScript numbers, as the cache uses them *)

Module Num.

(** Times and durations: integral milliseconds, or [Infinity]
    (the default [ttl]). *)
Inductive number : Type :=
| Finite (z : Z)
| Infinity.

(** [a + b] *)
Definition add (a b : number) : number :=
  match a, b with
  | Finite x, Finite y => Finite (x + y)
  | _, _ => Infinity
  end.

(** [a > b] *)
Definition gt (a b : number) : bool :=
  match a, b with
  | Finite x, Finite y => bool_decide (y < x)
  | Finite _, Infinity => false
  | Infinity, Finite _ => true
  | Infinity, Infinity => false
  end.

(** A duration that is not negative: what the constructor documents
    for [ttl]. *)
Definition nonneg (a : number) : Prop :=
  match a with
  | Finite x => 0 <= x
  | Infinity => True
  end.

End Num.

Export Num (number, Finite, Infinity).

(** ** Keys

    [K] is an unconstrained type parameter in the source.  The built-in map
    compares keys with SameValueZero, a decidable equality; the only other
    thing the cache asks of a key is whether it is the value [undefined]
    ([oldestKey !== undefined] in [set]). *)

Class JSKey (K : Type) := {
  key_eq_dec :: EqDecision K;
  is_undefined : K -> bool;
}.

(** [string] keys: never [undefined]. *)
#[export] Instance string_JSKey : JSKey string :=
  {| is_undefined := fun _ => false |}.

(** [number] keys (integral): never [undefined]. *)
#[export] Instance Z_JSKey : JSKey Z :=
  {| is_undefined := fun _ => false |}.

(** [T | undefined] keys: [None] is [undefined]. *)
#[export] Instance option_JSKey {T : Type} `{EqDecision T} : JSKey (option T) :=
  {| is_undefined := fun k => match k with None => true | Some _ => false end |}.

(** ** The built-in [Map], in insertion order *)

Module JSMap.
Section JSMap.
Context {K E : Type} `{JSKey K}.

Definition t : Type := list (K * E).

(** [new Map()] *)
Definition empty : t := [].

(** [m.get(key)]; [None] is [undefined]. *)
Fixpoint get (key : K) (m : t) : option E :=
  match m with
  | [] => None
  | (k, e) :: m' => if decide (k = key) then Some e else get key m'
  end.

(** [m.has(key)] *)
Definition has (key : K) (m : t) : bool :=
  match get key m with
  | Some _ => true
  | None => false
  end.

(** The map [m.delete(key)] leaves behind: the entry under [key] is
    gone, the others keep their order. *)
Fixpoint remove (key : K) (m : t) : t :=
  match m with
  | [] => []
  | (k, e) :: m' =>
      if decide (k = key) then remove key m' else (k, e) :: remove key m'
  end.

(** [m.delete(key)]: whether an entry was there, and the map left. *)
Definition delete (key : K) (m : t) : bool * t :=
  (has key m, remove key m).

(** [m.set(key, e)]: a present key keeps its position and takes the new
    entry; a new key goes to the end. *)
Fixpoint set (key : K) (e : E) (m : t) : t :=
  match m with
  | [] => [(key, e)]
  | (k, e') :: m' =>
      if decide (k = key) then (k, e) :: m' else (k, e') :: set key e m'
  end.

(** [m.size] *)
Definition size (m : t) : nat := length m.

(** [m.keys().next().value]: the first key in insertion order; [None]
    is the [undefined] of an exhausted iterator. *)
Definition first_key (m : t) : option K :=
  match m with
  | [] => None
  | (k, _) :: _ => Some k
  end.

(** [m.keys()] *)
Definition keys (m : t) : list K := map fst m.

(** Keys of a [Map] are unique. *)
Definition wf (m : t) : Prop := NoDup (keys m).

(** No entry is stored under the key [undefined]. *)
Definition defined_keys (m : t) : Prop :=
  Forall (fun k => is_undefined k = false) (keys m).

End JSMap.
Arguments t : clear implicits.
End JSMap.

(** ** cache.ts *)

Module Cache.

(** [interface CacheEntry<V>] *)
Record CacheEntry (V : Type) : Type := mkEntry {
  value : V;
  expiresAt : number;
}.
Arguments mkEntry {V} _ _.
Arguments value {V} _.
Arguments expiresAt {V} _.

(** [interface CacheOptions] (types.ts); [None] is an omitted option. *)
Record CacheOptions : Type := mkOptions {
  opt_maxSize : option Z;
  opt_ttl : option number;
}.

(** [class LRUCache<K, V>] *)
Record LRUCache (K V : Type) : Type := mkCache {
  cache : JSMap.t K (CacheEntry V);
  maxSize : Z;
  ttl : number;
}.
Arguments mkCache {K V} _ _ _.
Arguments cache {K V} _.
Arguments maxSize {K V} _.
Arguments ttl {K V} _.

Section Cache.
Context {K V : Type} `{JSKey K}.

(** The fields [maxSize] and [ttl] are readonly: only the map changes. *)
Definition with_cache (c : LRUCache K V) (m : JSMap.t K (CacheEntry V))
  : LRUCache K V :=
  mkCache m (maxSize c) (ttl c).

(** [constructor(options: CacheOptions = {})] *)
Definition new (options : CacheOptions) : LRUCache K V :=
  mkCache JSMap.empty
          (default 50 (opt_maxSize options))
          (default Infinity (opt_ttl options)).

(** [Date.now() > entry.expiresAt] *)
Definition expired (now : Z) (entry : CacheEntry V) : bool :=
  Num.gt (Finite now) (expiresAt entry).

(** [get(key: K): V | undefined] *)
Definition get (now : Z) (key : K) (c : LRUCache K V)
  : option V * LRUCache K V :=
  match JSMap.get key (cache c) with
  | None => (None, c)
  | Some entry =>
      if expired now entry then
        (None, with_cache c (JSMap.delete key (cache c)).2)
      else
        let m1 := (JSMap.delete key (cache c)).2 in
        let m2 := JSMap.set key entry m1 in
        (Some (value entry), with_cache c m2)
  end.

(** The eviction step of [set]: at capacity, the oldest key goes,
    unless [oldestKey !== undefined] fails. *)
Definition evict (c : LRUCache K V) (m : JSMap.t K (CacheEntry V))
  : JSMap.t K (CacheEntry V) :=
  if bool_decide (maxSize c <= Z.of_nat (JSMap.size m)) then
    match JSMap.first_key m with
    | Some oldestKey =>
        if is_undefined oldestKey then m
        else (JSMap.delete oldestKey m).2
    | None => m
    end
  else m.

(** [set(key: K, value: V): void] *)
Definition set (now : Z) (key : K) (v : V) (c : LRUCache K V)
  : LRUCache K V :=
  let m1 :=
    if JSMap.has key (cache c) then (JSMap.delete key (cache c)).2
    else cache c in
  let m2 := evict c m1 in
  with_cache c
    (JSMap.set key (mkEntry v (Num.add (Finite now) (ttl c))) m2).

(** [has(key: K): boolean] *)
Definition has (now : Z) (key : K) (c : LRUCache K V)
  : bool * LRUCache K V :=
  match JSMap.get key (cache c) with
  | None => (false, c)
  | Some entry =>
      if expired now entry then
        (false, with_cache c (JSMap.delete key (cache c)).2)
      else (true, c)
  end.

(** [delete(key: K): boolean] *)
Definition delete (key : K) (c : LRUCache K V) : bool * LRUCache K V :=
  let r := JSMap.delete key (cache c) in
  (r.1, with_cache c r.2).

(** [clear(): void] *)
Definition clear (c : LRUCache K V) : LRUCache K V :=
  with_cache c JSMap.empty.

(** [get size(): number] *)
Definition size (c : LRUCache K V) : Z :=
  Z.of_nat (JSMap.size (cache c)).

(** A run of [set] calls, each at its own clock reading. *)
Definition set_all (calls : list (Z * K * V)) (c : LRUCache K V)
  : LRUCache K V :=
  foldl (fun acc call => set call.1.1 call.1.2 call.2 acc) c calls.

(** A run of [get] calls, each at its own clock reading: what each
    returned, and the cache left. *)
Fixpoint get_all (reads : list (Z * K)) (c : LRUCache K V)
  : list (option V) * LRUCache K V :=
  match reads with
  | [] => ([], c)
  | (now, key) :: reads' =>
      let r := get now key c in
      let rest := get_all reads' r.2 in
      (r.1 :: rest.1, rest.2)
  end.

(** *** The cache under an ambient clock

    [Date.now()] reads [clock]; the test suite moves it with
    [vi.advanceTimersByTime]. *)
Record World : Type := mkWorld {
  clock : Z;
  lru : LRUCache K V;
}.

Definition advanceTimersByTime (d : Z) (w : World) : World :=
  mkWorld (clock w + d) (lru w).

Definition w_set (key : K) (v : V) (w : World) : World :=
  mkWorld (clock w) (set (clock w) key v (lru w)).

Definition w_get (key : K) (w : World) : option V * World :=
  let r := get (clock w) key (lru w) in (r.1, mkWorld (clock w) r.2).

Definition w_has (key : K) (w : World) : bool * World :=
  let r := has (clock w) key (lru w) in (r.1, mkWorld (clock w) r.2).

Definition w_delete (key : K) (w : World) : bool * World :=
  let r := delete key (lru w) in (r.1, mkWorld (clock w) r.2).

Definition w_size (w : World) : Z := size (lru w).

End Cache.
Arguments World : clear implicits.
Arguments mkWorld {K V} _ _.
End Cache.

(** ** font.ts *)

Module Font.

(** A template literal: literal text and substitutions, each
    substitution converted with ToString. *)
Inductive TemplatePart : Type :=
| Quasi (s : string)
| SubstString (s : string)
| SubstNumber (n : Z).

(** ToString of an integral number prints its decimal digits (for
    magnitudes below 10^21, which covers font weights). *)
Definition to_string (p : TemplatePart) : string :=
  match p with
  | Quasi s => s
  | SubstString s => s
  | SubstNumber n => pretty n
  end.

Definition template (parts : list TemplatePart) : string :=
  foldr (fun p acc => to_string p +:+ acc) EmptyString parts.

(** [FontConfig['weight']] and [FontConfig['style']] (types.ts) *)
Inductive FontWeight : Type :=
| W100 | W200 | W300 | W400 | W500 | W600 | W700 | W800 | W900.

Definition weight_number (w : FontWeight) : Z :=
  match w with
  | W100 => 100 | W200 => 200 | W300 => 300
  | W400 => 400 | W500 => 500 | W600 => 600
  | W700 => 700 | W800 => 800 | W900 => 900
  end.

Inductive FontStyle : Type := Normal | Italic.

Definition style_string (s : FontStyle) : string :=
  match s with
  | Normal => "normal"
  | Italic => "italic"
  end.

(** [interface FontConfig], as [loadGoogleFont] stores it; [Data] stands
    for [ArrayBuffer]. *)
Record FontConfig (Data : Type) : Type := mkFont {
  name : string;
  data : Data;
  weight : FontWeight;
  style : FontStyle;
}.
Arguments mkFont {Data} _ _ _ _.

(** [interface LoadGoogleFontOptions], without [text]. *)
Record LoadGoogleFontOptions : Type := mkLoad {
  load_weight : option FontWeight;
  load_style : option FontStyle;
}.

(** The options the module-level [fontCache] is constructed with. *)
Definition fontCacheOptions : Cache.CacheOptions :=
  Cache.mkOptions (Some 30) (Some (Finite (30 * 60 * 1000))).

(** [const fontCache = new LRUCache<string, FontConfig>({...})] *)
Definition fontCache (Data : Type) : Cache.LRUCache string (FontConfig Data) :=
  Cache.new fontCacheOptions.

(** [function fontCacheKey(family, weight, style)] *)
Definition fontCacheKey (family : string) (weight : Z) (style : string)
  : string :=
  template [SubstString family; Quasi ":"; SubstNumber weight;
            Quasi ":"; SubstString style].

(** The key [loadGoogleFont(family, options)] looks up and stores under. *)
Definition loadGoogleFont_key (family : string)
    (options : LoadGoogleFontOptions) : string :=
  let weight := default W400 (load_weight options) in
  let style := default Normal (load_style options) in
  fontCacheKey family (weight_number weight) (style_string style).

(** The synchronous head of [loadGoogleFont]: the cache lookup.  A stored
    [FontConfig] is an object, so [if (cached)] succeeds on every hit. *)
Definition loadGoogleFont_cached {Data : Type} (now : Z) (family : string)
    (options : LoadGoogleFontOptions)
    (c : Cache.LRUCache string (FontConfig Data))
  : option (FontConfig Data) * Cache.LRUCache string (FontConfig Data) :=
  Cache.get now (loadGoogleFont_key family options) c.

End Font.

(** ** cache.test.ts: the fixture of the eviction tests *)

Module Scenario.
Section Scenario.
Context {K V : Type} `{JSKey K}.

(** [beforeEach]: [new LRUCache({ maxSize: 3 })], no [ttl]. *)
Definition fixture : Cache.LRUCache K V :=
  Cache.new (Cache.mkOptions (Some 3) None).

(** [set] of three keys in turn, at the clock readings [t1], [t2],
    [t3]. *)
Definition abc (a b c : K) (va vb vc : V) (t1 t2 t3 : Z)
  : Cache.LRUCache K V :=
  Cache.set t3 c vc (Cache.set t2 b vb (Cache.set t1 a va fixture)).

(** An entry of the fixture: it never expires. *)
Definition ent (v : V) : Cache.CacheEntry V := Cache.mkEntry v Infinity.

(** The fixture holding the entries [m], oldest first. *)
Definition holding (m : JSMap.t K (Cache.CacheEntry V))
  : Cache.LRUCache K V :=
  Cache.mkCache m 3 Infinity.

End Scenario.
End Scenario.

(** ** font.ts: loading and resolving fonts

    [loadGoogleFont] and [resolveFont] are async functions over the
    platform: they await [fetch] and the reading of response bodies, and
    they read and write the module-level [fontCache].  The platform is a
    parameter: an abstract state [Env], the clock [Date.now()] reads from
    it, and a [fetch] that answers a request and moves the state on (to
    where the awaited body has been read).  A call is modelled as a
    single flow: no other call touches [fontCache] between its lookup and
    its store. *)

Module FontLoader.

(** What an awaited platform promise gives: a value, or the reason it
    rejected with. *)
Inductive Awaited (PErr A : Type) : Type :=
| Fulfilled (a : A)
| Rejected (reason : PErr).
Arguments Fulfilled {PErr A} _.
Arguments Rejected {PErr A} _.

(** A thrown value: [new Error(message)], or a platform rejection passed
    on by an [await]. *)
Inductive Thrown (PErr : Type) : Type :=
| JSError (message : string)
| Rejection (reason : PErr).
Arguments JSError {PErr} _.
Arguments Rejection {PErr} _.

(** How an async function settles. *)
Inductive Completion (PErr A : Type) : Type :=
| Return (a : A)
| Throw (e : Thrown PErr).
Arguments Return {PErr A} _.
Arguments Throw {PErr A} _.

(** [fetch(url, { headers })] *)
Record Request : Type := mkRequest {
  req_url : string;
  req_headers : list (string * string);
}.

(** The parts of a [Response] the module reads. *)
Record Response (Data PErr : Type) : Type := mkResponse {
  ok : bool;
  status : Z;
  statusText : string;
  text : Awaited PErr string;
  arrayBuffer : Awaited PErr Data;
}.
Arguments mkResponse {Data PErr} _ _ _ _ _.
Arguments ok {Data PErr} _.
Arguments status {Data PErr} _.
Arguments statusText {Data PErr} _.
Arguments text {Data PErr} _.
Arguments arrayBuffer {Data PErr} _.

(** The platform: the clock, [fetch], the serializer behind
    [URLSearchParams.prototype.toString], and the regular-expression
    engine run on [/src:\s*url\(([^)]+)\)/], giving the first match's
    capture group, if any. *)
Record Platform (Env Data PErr : Type) : Type := mkPlatform {
  Date_now : Env -> Z;
  fetch : Request -> Env -> Awaited PErr (Response Data PErr) * Env;
  URLSearchParams_toString : list (string * string) -> string;
  match_src_url : string -> option string;
}.
Arguments Date_now {Env Data PErr} _ _.
Arguments fetch {Env Data PErr} _ _ _.
Arguments URLSearchParams_toString {Env Data PErr} _ _.
Arguments match_src_url {Env Data PErr} _ _.

(** [interface LoadGoogleFontOptions] *)
Record Options : Type := mkOptions {
  o_weight : option Font.FontWeight;
  o_style : option Font.FontStyle;
  o_text : option string;
}.

(** [interface FontConfig], with its optional fields. *)
Record FontSpec (Data : Type) : Type := mkSpec {
  f_name : string;
  f_data : option Data;
  f_weight : option Font.FontWeight;
  f_style : option Font.FontStyle;
  f_url : option string;
}.
Arguments mkSpec {Data} _ _ _ _ _.
Arguments f_name {Data} _.
Arguments f_data {Data} _.
Arguments f_weight {Data} _.
Arguments f_style {Data} _.
Arguments f_url {Data} _.

(** The double-quote character. *)
Definition dquote : string :=
  String (Ascii.ascii_of_nat 34) EmptyString.

(** The [User-Agent] the CSS request is sent with. *)
Definition userAgent : string :=
  "Mozilla/5.0 (Macintosh; Intel Mac OS X 10_15_7) AppleWebKit/537.36 (KHTML, like Gecko) Chrome/120.0.0.0 Safari/537.36".

(** An optional string that is truthy: present and not empty. *)
Definition truthy (s : option string) : option string :=
  match s with
  | Some s' => if decide (s' = EmptyString) then None else Some s'
  | None => None
  end.

(** What follows the family in the key of a typed weight and style. *)
Definition key_tail (weight : Font.FontWeight) (style : Font.FontStyle)
  : string :=
  ":" +:+ pretty (Font.weight_number weight) +:+ ":"
  +:+ Font.style_string style.

(** The bound of the module's cache. *)
Definition within_30 {Data : Type}
    (c : Cache.LRUCache string (Font.FontConfig Data)) : Prop :=
  Cache.maxSize c = 30 /\ Cache.size c <= 30.

(** The key a descriptor is stored under by the call that fetched it. *)
Definition own_key {Data : Type} (config : Font.FontConfig Data) : string :=
  Font.fontCacheKey (Font.name Data config)
    (Font.weight_number (Font.weight Data config))
    (Font.style_string (Font.style Data config)).

(** Every descriptor in the cache is filed under its own key. *)
Definition filed {Data : Type}
    (c : Cache.LRUCache string (Font.FontConfig Data)) : Prop :=
  forall k e, JSMap.get k (Cache.cache c) = Some e ->
              k = own_key (Cache.value e).

Section FontLoader.
Context {Env Data PErr : Type} (P : Platform Env Data PErr).

(** The platform state and the module-level [fontCache]. *)
Record World : Type := mkWorld {
  env : Env;
  fontCache : Cache.LRUCache string (Font.FontConfig Data);
}.

(** An async function body: it settles and leaves a world. *)
Definition M (A : Type) : Type := World -> Completion PErr A * World.

Definition ret {A : Type} (a : A) : M A := fun w => (Return a, w).

Definition throw {A : Type} (e : Thrown PErr) : M A := fun w => (Throw e, w).

Definition bind {A B : Type} (m : M A) (k : A -> M B) : M B :=
  fun w =>
    match m w with
    | (Return a, w') => k a w'
    | (Throw e, w') => (Throw e, w')
    end.

(** [await] of a promise that has settled. *)
Definition await {A : Type} (p : Awaited PErr A) : M A :=
  match p with
  | Fulfilled a => ret a
  | Rejected reason => throw (Rejection reason)
  end.

(** [await fetch(...)] *)
Definition await_fetch (req : Request) : M (Response Data PErr) :=
  fun w =>
    let r := fetch P req (env w) in
    await r.1 (mkWorld r.2 (fontCache w)).

(** [fontCache.get(key)] for the key of [family] and [options]. *)
Definition cache_lookup (family : string)
    (options : Font.LoadGoogleFontOptions)
  : M (option (Font.FontConfig Data)) :=
  fun w =>
    let r := Font.loadGoogleFont_cached (Date_now P (env w)) family options
               (fontCache w) in
    (Return r.1, mkWorld (env w) r.2).

(** [fontCache.set(key, config)] *)
Definition cache_store (key : string) (config : Font.FontConfig Data)
  : M unit :=
  fun w =>
    (Return tt,
     mkWorld (env w)
       (Cache.set (Date_now P (env w)) key config (fontCache w))).

(** The entries [params] holds when it is serialized; [subset] is
    [options.text]. *)
Definition css_params (family : string) (weight : Z)
    (subset : option string) : list (string * string) :=
  [("family", Font.template [Font.SubstString family; Font.Quasi ":wght@";
                             Font.SubstNumber weight]);
   ("display", "swap")]
  ++ match truthy subset with
     | Some t => [("text", t)]
     | None => []
     end.

Definition cssUrl (family : string) (weight : Z) (subset : option string)
  : string :=
  Font.template
    [Font.Quasi "https://fonts.googleapis.com/css2?";
     Font.SubstString
       (URLSearchParams_toString P (css_params family weight subset))].

Definition css_failed (family : string) (r : Response Data PErr)
  : Thrown PErr :=
  JSError
    (Font.template
       [Font.Quasi "Failed to fetch Google Font CSS for "; Font.Quasi dquote;
        Font.SubstString family; Font.Quasi dquote; Font.Quasi ": ";
        Font.SubstNumber (status r); Font.Quasi " ";
        Font.SubstString (statusText r)]).

Definition url_not_found (family : string) (weight : Z) (style : string)
  : Thrown PErr :=
  JSError
    (Font.template
       [Font.Quasi "Could not find font URL in Google Fonts CSS for ";
        Font.Quasi dquote; Font.SubstString family; Font.Quasi dquote;
        Font.Quasi " (weight: "; Font.SubstNumber weight;
        Font.Quasi ", style: "; Font.SubstString style; Font.Quasi ")"]).

Definition font_failed (family : string) (r : Response Data PErr)
  : Thrown PErr :=
  JSError
    (Font.template
       [Font.Quasi "Failed to fetch font file for "; Font.Quasi dquote;
        Font.SubstString family; Font.Quasi dquote; Font.Quasi ": ";
        Font.SubstNumber (status r); Font.Quasi " ";
        Font.SubstString (statusText r)]).

(** [loadGoogleFont] after a cache miss: the two requests and the
    store. *)
Definition fetch_and_store (family : string) (weight : Font.FontWeight)
    (style : Font.FontStyle) (subset : option string)
  : M (Font.FontConfig Data) :=
  bind (await_fetch
          (mkRequest (cssUrl family (Font.weight_number weight) subset)
             [("User-Agent", userAgent)]))
    (fun cssResponse =>
  if negb (ok cssResponse) then throw (css_failed family cssResponse)
  else
  bind (await (text cssResponse)) (fun css =>
  match truthy (match_src_url P css) with
  | None =>
      throw (url_not_found family (Font.weight_number weight)
               (Font.style_string style))
  | Some fontUrl =>
      bind (await_fetch (mkRequest fontUrl [])) (fun fontResponse =>
      if negb (ok fontResponse) then throw (font_failed family fontResponse)
      else
      bind (await (arrayBuffer fontResponse)) (fun data =>
      let config := Font.mkFont family data weight style in
      bind (cache_store
              (Font.fontCacheKey family (Font.weight_number weight)
                 (Font.style_string style))
              config)
        (fun _ => ret config)))
  end)).

(** [export async function loadGoogleFont(family, options = {})] *)
Definition loadGoogleFont (family : string) (options : Options)
  : M (Font.FontConfig Data) :=
  let weight := default Font.W400 (o_weight options) in
  let style := default Font.Normal (o_style options) in
  bind (cache_lookup family
          (Font.mkLoad (o_weight options) (o_style options)))
    (fun cached =>
       match cached with
       | Some config => ret config
       | None => fetch_and_store family weight style (o_text options)
       end).

(** A [FontConfig] as [loadGoogleFont] returns it, among all
    [FontConfig]s. *)
Definition of_config (config : Font.FontConfig Data) : FontSpec Data :=
  mkSpec (Font.name Data config) (Some (Font.data Data config))
    (Some (Font.weight Data config)) (Some (Font.style Data config)) None.

Definition url_failed (url : string) (r : Response Data PErr)
  : Thrown PErr :=
  JSError
    (Font.template
       [Font.Quasi "Failed to fetch font from URL "; Font.Quasi dquote;
        Font.SubstString url; Font.Quasi dquote; Font.Quasi ": ";
        Font.SubstNumber (status r); Font.Quasi " ";
        Font.SubstString (statusText r)]).

(** [export async function resolveFont(font)] *)
Definition resolveFont (font : FontSpec Data) : M (FontSpec Data) :=
  match f_data font with
  | Some _ => ret font
  | None =>
      match truthy (f_url font) with
      | Some url =>
          bind (await_fetch (mkRequest url [])) (fun response =>
          if negb (ok response) then throw (url_failed url response)
          else
          bind (await (arrayBuffer response)) (fun data =>
          ret (mkSpec (f_name font) (Some data) (f_weight font)
                 (f_style font) (f_url font))))
      | None =>
          bind (loadGoogleFont (f_name font)
                  (mkOptions (f_weight font) (f_style font) None))
            (fun config => ret (of_config config))
      end
  end.

(** [export function clearFontCache()] *)
Definition clearFontCache (w : World) : World :=
  mkWorld (env w) (Cache.clear (fontCache w)).

(** A use of the module by its callers. *)
Inductive FontCall : Type :=
| LoadGoogleFont (family : string) (options : Options)
| ResolveFont (font : FontSpec Data)
| ClearFontCache
| Elsewhere (env' : Env).

(** One call after another; between calls the platform state moves
    freely ([Elsewhere]). *)
Definition font_step (call : FontCall) (w : World) : World :=
  match call with
  | LoadGoogleFont family options => (loadGoogleFont family options w).2
  | ResolveFont font => (resolveFont font w).2
  | ClearFontCache => clearFontCache w
  | Elsewhere env' => mkWorld env' (fontCache w)
  end.

Definition font_run (calls : list FontCall) (w : World) : World :=
  foldl (fun acc call => font_step call acc) w calls.

(** The key a call of [loadGoogleFont] looks up and stores under. *)
Definition key_of (family : string) (options : Options) : string :=
  Font.loadGoogleFont_key family
    (Font.mkLoad (o_weight options) (o_style options)).

(** The font cache after the lookup [loadGoogleFont] starts with. *)
Definition after_lookup (family : string) (options : Options) (w : World)
  : Cache.LRUCache string (Font.FontConfig Data) :=
  (Cache.get (Date_now P (env w)) (key_of family options) (fontCache w)).2.

(** The world a program starts in: the cache as the module constructs
    it. *)
Definition start (e : Env) : World := mkWorld e (Font.fontCache Data).

End FontLoader.
Arguments World : clear implicits.
Arguments mkWorld {Env Data} _ _.
Arguments env {Env Data} _.
Arguments fontCache {Env Data} _.
Arguments FontCall : clear implicits.
Arguments LoadGoogleFont {Env Data} _ _.
Arguments ResolveFont {Env Data} _.
Arguments ClearFontCache {Env Data}.
Arguments Elsewhere {Env Data} _.
End FontLoader.

(** ** Strings

    A [string] stands for the JavaScript string with the same code
    units, all below 256: ASCII text and what [Headers.get] returns. *)

Module JSString.

(** A code unit [trim] strips: TAB, LF, VT, FF, CR, space and the
    no-break space. *)
Definition is_white_space (a : ascii) : bool :=
  let n := Ascii.nat_of_ascii a in
  bool_decide ((9 <= n <= 13)%nat \/ n = 32%nat \/ n = 160%nat).

(** [s.startsWith(p)] *)
Definition startsWith (p s : string) : bool := String.prefix p s.

(** [s.split(sep)] for a one-character separator: never empty. *)
Fixpoint split (sep : ascii) (s : string) : list string :=
  match s with
  | EmptyString => [EmptyString]
  | String a s' =>
      if decide (a = sep) then EmptyString :: split sep s'
      else match split sep s' with
           | piece :: pieces => String a piece :: pieces
           | [] => [String a EmptyString]
           end
  end.

(** [parts[0]] and [parts.pop()] of the parts of a split. *)
Definition first_part (parts : list string) : string :=
  default EmptyString (head parts).

Definition last_part (parts : list string) : string :=
  default EmptyString (last parts).

Fixpoint trimStart (s : string) : string :=
  match s with
  | EmptyString => EmptyString
  | String a s' => if is_white_space a then trimStart s' else s
  end.

Fixpoint trimEnd (s : string) : string :=
  match s with
  | EmptyString => EmptyString
  | String a s' =>
      match trimEnd s' with
      | EmptyString =>
          if is_white_space a then EmptyString else String a EmptyString
      | rest => String a rest
      end
  end.

(** [s.trim()] *)
Definition trim (s : string) : string := trimEnd (trimStart s).

(** The lower-case mapping of a code unit below 256: A to Z, and the
    capital letters of Latin-1 (0xC0 to 0xDE but the multiplication sign
    0xD7). *)
Definition lower_unit (a : ascii) : ascii :=
  let n := Ascii.nat_of_ascii a in
  if bool_decide ((65 <= n <= 90)%nat
                  \/ ((192 <= n <= 222)%nat /\ n <> 215%nat))
  then Ascii.ascii_of_nat (n + 32)
  else a.

(** [s.toLowerCase()] *)
Fixpoint toLowerCase (s : string) : string :=
  match s with
  | EmptyString => EmptyString
  | String a s' => String (lower_unit a) (toLowerCase s')
  end.

(** Every code unit of the string is white space. *)
Fixpoint all_white_space (s : string) : bool :=
  match s with
  | EmptyString => true
  | String a s' => is_white_space a && all_white_space s'
  end.

(** The string has no code unit [a]. *)
Fixpoint lacks (a : ascii) (s : string) : bool :=
  match s with
  | EmptyString => true
  | String b s' => if decide (b = a) then false else lacks a s'
  end.

End JSString.

(** ** image.ts *)

Module Image.

(** [function inferMimeType(url, contentType?)], the [switch] on the
    extension. *)
Definition mime_of_extension (ext : string) : string :=
  if decide (ext = "png") then "image/png"
  else if decide (ext = "jpg") then "image/jpeg"
  else if decide (ext = "jpeg") then "image/jpeg"
  else if decide (ext = "gif") then "image/gif"
  else if decide (ext = "webp") then "image/webp"
  else if decide (ext = "svg") then "image/svg+xml"
  else "image/png".

(** [url.split('.').pop()?.split('?')[0]?.toLowerCase()] *)
Definition extension (url : string) : string :=
  JSString.toLowerCase
    (JSString.first_part
       (JSString.split "?"%char
          (JSString.last_part (JSString.split "."%char url)))).

(** [function inferMimeType(url: string, contentType?: string | null)] *)
Definition inferMimeType (url : string) (contentType : option string)
  : string :=
  match contentType with
  | Some ct =>
      if JSString.startsWith "image/" ct
      then JSString.trim (JSString.first_part (JSString.split ";"%char ct))
      else mime_of_extension (extension url)
  | None => mime_of_extension (extension url)
  end.

(** [interface FetchImageOptions]; a dimension is falsy when it is
    missing or 0. *)
Record FetchImageOptions : Type := mkImageOptions {
  width : option Z;
  height : option Z;
}.

Definition truthy_number (n : option Z) : bool :=
  match n with
  | Some z => negb (bool_decide (z = 0))
  | None => false
  end.

(** The parts of a [Response] that [fetchImage] reads. *)
Record Response (Data PErr : Type) : Type := mkResponse {
  ok : bool;
  status : Z;
  statusText : string;
  content_type : option string;
  arrayBuffer : FontLoader.Awaited PErr Data;
}.
Arguments mkResponse {Data PErr} _ _ _ _ _.
Arguments ok {Data PErr} _.
Arguments status {Data PErr} _.
Arguments statusText {Data PErr} _.
Arguments content_type {Data PErr} _.
Arguments arrayBuffer {Data PErr} _.

(** The platform of [fetchImage]: [fetch]; the dynamic [import('sharp')],
    which gives the module or fails; the resize pipeline
    [sharp(buffer).resize(width, height, { fit: 'cover' }).png().toBuffer()];
    and [buffer.toString('base64')]. *)
Record Platform (Env Data PErr Sharp : Type) : Type := mkPlatform {
  fetch : string -> Env -> FontLoader.Awaited PErr (Response Data PErr) * Env;
  import_sharp : Env -> option Sharp * Env;
  resize_to_png :
    Sharp -> Data -> option Z -> option Z -> Env ->
    FontLoader.Awaited PErr Data * Env;
  base64 : Data -> string;
}.
Arguments fetch {Env Data PErr Sharp} _ _ _.
Arguments import_sharp {Env Data PErr Sharp} _ _.
Arguments resize_to_png {Env Data PErr Sharp} _ _ _ _ _ _.
Arguments base64 {Env Data PErr Sharp} _ _.

Section Image.
Context {Env Data PErr Sharp : Type} (P : Platform Env Data PErr Sharp).

Definition fetch_failed (url : string) (r : Response Data PErr)
  : FontLoader.Thrown PErr :=
  FontLoader.JSError
    (Font.template
       [Font.Quasi "Failed to fetch image from "; Font.Quasi FontLoader.dquote;
        Font.SubstString url; Font.Quasi FontLoader.dquote; Font.Quasi ": ";
        Font.SubstNumber (status r); Font.Quasi " ";
        Font.SubstString (statusText r)]).

(** The data URI [fetchImage] returns. *)
Definition data_uri (mimeType : string) (buffer : Data) : string :=
  Font.template
    [Font.Quasi "data:"; Font.SubstString mimeType; Font.Quasi ";base64,";
     Font.SubstString (base64 P buffer)].

(** [export async function fetchImage(url, options = {})]: how it
    settles, and the platform state it leaves. *)
Definition fetchImage (url : string) (options : FetchImageOptions) (e : Env)
  : FontLoader.Completion PErr string * Env :=
  match fetch P url e with
  | (FontLoader.Rejected reason, e1) =>
      (FontLoader.Throw (FontLoader.Rejection reason), e1)
  | (FontLoader.Fulfilled response, e1) =>
      if negb (ok response)
      then (FontLoader.Throw (fetch_failed url response), e1)
      else
        match arrayBuffer response with
        | FontLoader.Rejected reason =>
            (FontLoader.Throw (FontLoader.Rejection reason), e1)
        | FontLoader.Fulfilled buffer =>
            let mimeType := inferMimeType url (content_type response) in
            if truthy_number (width options)
               || truthy_number (height options)
            then
              match import_sharp P e1 with
              | (Some sharp, e2) =>
                  match resize_to_png P sharp buffer (width options)
                          (height options) e2 with
                  | (FontLoader.Fulfilled resized, e3) =>
                      (FontLoader.Return (data_uri "image/png" resized), e3)
                  | (FontLoader.Rejected reason, e3) =>
                      (FontLoader.Throw (FontLoader.Rejection reason), e3)
                  end
              | (None, e2) =>
                  (FontLoader.Return (data_uri mimeType buffer), e2)
              end
            else (FontLoader.Return (data_uri mimeType buffer), e1)
        end
  end.

End Image.
End Image.

(** ** font.test.ts and image.test.ts: the mocked platform

    The tests stub [fetch] with a queue of responses handed out in turn
    and run under a clock they control.  The serializer and the matcher
    here are stand-ins that do for the inputs of the tests. *)

Module Mock.

(** The clock, the responses still queued, and the requests made. *)
Record Env : Type := mkEnv {
  now : Z;
  queued : list (FontLoader.Response string string);
  calls : list FontLoader.Request;
}.

(** [vi.fn().mockResolvedValueOnce(...)]: each call takes a millisecond
    and the next queued response. *)
Definition fetch (req : FontLoader.Request) (e : Env)
  : FontLoader.Awaited string (FontLoader.Response string string) * Env :=
  match queued e with
  | r :: rest =>
      (FontLoader.Fulfilled r, mkEnv (now e + 1) rest (calls e ++ [req]))
  | [] =>
      (FontLoader.Rejected "no response queued",
       mkEnv (now e + 1) [] (calls e ++ [req]))
  end.

(** [new Response(body, { status: 200 })] *)
Definition response_ok (body : string) : FontLoader.Response string string :=
  FontLoader.mkResponse true 200 EmptyString
    (FontLoader.Fulfilled body) (FontLoader.Fulfilled body).

Definition MOCK_CSS : string :=
  "src: url(https://fonts.gstatic.com/s/inter/v13/mock-inter-bold.woff2) format('woff2');".

Definition MOCK_FONT_DATA : string := "font-bytes".

(** Joins the entries without escaping. *)
Definition join_params (params : list (string * string)) : string :=
  String.concat "&" (map (fun kv => kv.1 +:+ "=" +:+ kv.2) params).

(** Finds the font URL of [MOCK_CSS] and of nothing else. *)
Definition find_url (css : string) : option string :=
  if decide (css = MOCK_CSS)
  then Some "https://fonts.gstatic.com/s/inter/v13/mock-inter-bold.woff2"
  else None.

Definition platform : FontLoader.Platform Env string string :=
  FontLoader.mkPlatform Env string string now fetch join_params find_url.

(** A test's starting world: an empty font cache, the clock at [t], the
    CSS and the font file queued. *)
Definition fresh (t : Z) : FontLoader.World Env string :=
  FontLoader.start
    (mkEnv t [response_ok MOCK_CSS; response_ok MOCK_FONT_DATA] []).

(** [{ weight: 700 }] *)
Definition bold : FontLoader.Options :=
  FontLoader.mkOptions (Some Font.W700) None None.

(** image.test.ts: a [fetch] that answers every request with the same
    response, no [sharp] installed, and an encoder that stands in for
    base64 by leaving the text as it is. *)
Definition image_platform (response : Image.Response string string)
  : Image.Platform Z string string unit :=
  Image.mkPlatform Z string string unit
    (fun _ t => (FontLoader.Fulfilled response, t + 1))
    (fun t => (None, t))
    (fun _ buffer _ _ t => (FontLoader.Fulfilled buffer, t))
    (fun buffer => buffer).

End Mock.

(** ** Runs of cache calls *)

Module CacheRun.
Section CacheRun.
Context {K V : Type} `{JSKey K}.

(** One call on a cache, by a caller who looks at the result or not. *)
Inductive Call : Type :=
| CallSet (key : K) (v : V)
| CallGet (key : K)
| CallHas (key : K)
| CallDelete (key : K)
| CallClear.

(** The cache a call at clock reading [now] leaves. *)
Definition step (now : Z) (call : Call) (c : Cache.LRUCache K V)
  : Cache.LRUCache K V :=
  match call with
  | CallSet key v => Cache.set now key v c
  | CallGet key => (Cache.get now key c).2
  | CallHas key => (Cache.has now key c).2
  | CallDelete key => (Cache.delete key c).2
  | CallClear => Cache.clear c
  end.

(** Calls in sequence, each at its own clock reading. *)
Definition run (calls : list (Z * Call)) (c : Cache.LRUCache K V)
  : Cache.LRUCache K V :=
  foldl (fun acc call => step call.1 call.2 acc) c calls.

(** The key a [set] writes is not [undefined]. *)
Definition defined_call (call : Call) : Prop :=
  match call with
  | CallSet key _ => is_undefined key = false
  | _ => True
  end.

(** The entry [set(key, v)] at [now] stores in a cache with [ttl] [d]. *)
Definition stored (d : number) (call : Z * K * V) : K * Cache.CacheEntry V :=
  (call.1.2, Cache.mkEntry call.2 (Num.add (Finite call.1.1) d)).

End CacheRun.
Arguments Call : clear implicits.
End CacheRun.

(** * Facts about the insertion-ordered map *)

Section JSMapFacts.
Context {K E : Type} `{JSKey K}.
Implicit Types (m : JSMap.t K E) (k key : K) (e : E).

Lemma get_remove_eq key m : JSMap.get key (JSMap.remove key m) = None.
Proof.
  induction m as [| [k e] m IH]; simpl; [reflexivity |].
  destruct (decide (k = key)) as [-> | Hne]; [exact IH |].
  simpl. now rewrite decide_False.
Qed.

Lemma get_remove_ne key k m :
  key <> k -> JSMap.get k (JSMap.remove key m) = JSMap.get k m.
Proof.
  intros Hne. induction m as [| [k0 e] m IH]; simpl; [reflexivity |].
  destruct (decide (k0 = key)) as [-> | Hk0].
  - now rewrite decide_False.
  - simpl. now rewrite IH.
Qed.

Lemma remove_absent key m :
  JSMap.get key m = None -> JSMap.remove key m = m.
Proof.
  induction m as [| [k e] m IH]; simpl; [reflexivity |].
  destruct (decide (k = key)); [discriminate |].
  intros Hm. now rewrite IH.
Qed.

Lemma set_absent key e m :
  JSMap.get key m = None -> JSMap.set key e m = m ++ [(key, e)].
Proof.
  induction m as [| [k e'] m IH]; simpl; [reflexivity |].
  destruct (decide (k = key)); [discriminate |].
  intros Hm. now rewrite IH.
Qed.

Lemma set_remove key e m :
  JSMap.set key e (JSMap.remove key m) = JSMap.remove key m ++ [(key, e)].
Proof. apply set_absent, get_remove_eq. Qed.

Lemma get_snoc k key e m :
  JSMap.get k (m ++ [(key, e)])
  = match JSMap.get k m with
    | Some e' => Some e'
    | None => if decide (key = k) then Some e else None
    end.
Proof.
  induction m as [| [k0 e0] m IH]; simpl; [reflexivity |].
  now destruct (decide (k0 = k)).
Qed.

Lemma get_set_eq key e m : JSMap.get key (JSMap.set key e m) = Some e.
Proof.
  induction m as [| [k e'] m IH]; simpl.
  - now rewrite decide_True.
  - destruct (decide (k = key)) as [-> | Hne]; simpl.
    + now rewrite decide_True.
    + now rewrite decide_False.
Qed.

Lemma get_set_ne key k e m :
  key <> k -> JSMap.get k (JSMap.set key e m) = JSMap.get k m.
Proof.
  intros Hne. induction m as [| [k0 e0] m IH]; simpl.
  - now rewrite decide_False.
  - destruct (decide (k0 = key)) as [-> | Hk0]; simpl.
    + now rewrite !decide_False.
    + now rewrite IH.
Qed.

Lemma has_true key m :
  JSMap.has key m = true <-> exists e, JSMap.get key m = Some e.
Proof.
  unfold JSMap.has. destruct (JSMap.get key m) as [e |].
  - split; [eauto | reflexivity].
  - split; [discriminate | intros [e He]; discriminate].
Qed.

Lemma has_false key m :
  JSMap.has key m = false <-> JSMap.get key m = None.
Proof.
  unfold JSMap.has. destruct (JSMap.get key m); split; congruence.
Qed.

Lemma get_keys key m :
  JSMap.get key m = None <-> key ∉ JSMap.keys m.
Proof.
  unfold JSMap.keys.
  induction m as [| [k e] m IH]; simpl.
  - split; [intros _; apply not_elem_of_nil | reflexivity].
  - rewrite not_elem_of_cons.
    destruct (decide (k = key)) as [-> | Hne].
    + split; [discriminate | intros [Hk _]; congruence].
    + rewrite IH. split; [intros Hm; split; congruence | now intros [_ Hm]].
Qed.

Lemma length_remove_le key m :
  (length (JSMap.remove key m) <= length m)%nat.
Proof.
  induction m as [| [k e] m IH]; simpl; [lia |].
  destruct (decide (k = key)); simpl; lia.
Qed.

Lemma length_remove_lt key m e :
  JSMap.get key m = Some e ->
  (length (JSMap.remove key m) < length m)%nat.
Proof.
  induction m as [| [k e'] m IH]; simpl; [discriminate |].
  destruct (decide (k = key)); simpl.
  - intros _. pose proof (length_remove_le key m). lia.
  - intros Hm. specialize (IH Hm). lia.
Qed.

Lemma keys_remove key m :
  JSMap.keys (JSMap.remove key m)
  = filter (fun k => k <> key) (JSMap.keys m).
Proof.
  unfold JSMap.keys.
  induction m as [| [k e] m IH]; simpl; [reflexivity |].
  destruct (decide (k = key)) as [-> | Hne].
  - rewrite filter_cons_False by (simpl; congruence). exact IH.
  - rewrite filter_cons_True by exact Hne. simpl. now rewrite IH.
Qed.

Lemma wf_remove key m : JSMap.wf m -> JSMap.wf (JSMap.remove key m).
Proof.
  unfold JSMap.wf. rewrite keys_remove. apply NoDup_filter.
Qed.

(** On a map with unique keys, [delete] of a present key takes exactly
    one entry. *)
Lemma length_remove_wf key m e :
  JSMap.wf m -> JSMap.get key m = Some e ->
  S (length (JSMap.remove key m)) = length m.
Proof.
  unfold JSMap.wf, JSMap.keys.
  induction m as [| [k e'] m IH]; simpl; [discriminate |].
  intros Hnd. apply NoDup_cons in Hnd as [Hk Hnd].
  destruct (decide (k = key)) as [-> | Hne].
  - intros _. rewrite remove_absent; [reflexivity |].
    now apply get_keys.
  - intros Hm. simpl. now rewrite IH.
Qed.

Lemma keys_set_absent key e m :
  JSMap.get key m = None ->
  JSMap.keys (JSMap.set key e m) = JSMap.keys m ++ [key].
Proof.
  intros Hm. rewrite set_absent by exact Hm.
  unfold JSMap.keys. now rewrite map_app.
Qed.

Lemma wf_set_absent key e m :
  JSMap.get key m = None -> JSMap.wf m -> JSMap.wf (JSMap.set key e m).
Proof.
  intros Hm Hwf. unfold JSMap.wf. rewrite keys_set_absent by exact Hm.
  apply NoDup_app. split; [exact Hwf |]. split.
  - intros k Hk Hin. apply list_elem_of_singleton in Hin as ->.
    now apply get_keys in Hm.
  - apply NoDup_singleton.
Qed.

End JSMapFacts.

(** * Properties *)

(** ** The font resolver *)

Lemma append_empty_r (s : string) : s +:+ EmptyString = s.
Proof.
  induction s as [| a s IH]; [reflexivity |].
  change (String a (s +:+ EmptyString) = String a s). now f_equal.
Qed.

(** C8: the font cache key is family, weight and style joined with ':'
    (e.g. "Inter:700:normal"), and the shared font cache is constructed
    with capacity 30 and a TTL of 30 minutes, 1,800,000 ms. *)
Theorem fontCacheKey_and_fontCache_constants :
  (forall (family : string) (weight : Z) (style : string),
      Font.fontCacheKey family weight style
      = family +:+ ":" +:+ pretty weight +:+ ":" +:+ style)
  /\ Font.fontCacheKey "Inter" 700 "normal" = "Inter:700:normal"
  /\ Font.loadGoogleFont_key "Inter" (Font.mkLoad (Some Font.W700) None)
     = "Inter:700:normal"
  /\ (forall Data : Type,
        Cache.maxSize (Font.fontCache Data) = 30
        /\ Cache.ttl (Font.fontCache Data) = Finite 1800000
        /\ Cache.cache (Font.fontCache Data) = []).
Proof.
  split; [| split; [| split]].
  - intros family weight style.
    unfold Font.fontCacheKey, Font.template; simpl.
    now rewrite append_empty_r.
  - reflexivity.
  - reflexivity.
  - intros Data. repeat split.
Qed.

(** ** The cache: capacity *)

Section Capacity.
Context {K V : Type} `{JSKey K}.
Implicit Types (c : Cache.LRUCache K V) (k key : K) (v : V) (now : Z).
Implicit Types (m : JSMap.t K (Cache.CacheEntry V)).

Lemma defined_keys_remove key m :
  JSMap.defined_keys m -> JSMap.defined_keys (JSMap.remove key m).
Proof.
  unfold JSMap.defined_keys. rewrite keys_remove, !Forall_forall.
  intros Hm k Hk. apply list_elem_of_filter in Hk as [_ Hk]. auto.
Qed.

Lemma defined_keys_snoc key (e : Cache.CacheEntry V) m :
  is_undefined key = false ->
  JSMap.defined_keys m -> JSMap.defined_keys (m ++ [(key, e)]).
Proof.
  intros Hk Hm. unfold JSMap.defined_keys, JSMap.keys in *.
  rewrite map_app. apply Forall_app. split; [exact Hm |].
  now repeat constructor.
Qed.

(** Below capacity nothing is evicted. *)
Lemma evict_below c m :
  Z.of_nat (JSMap.size m) < Cache.maxSize c -> Cache.evict c m = m.
Proof.
  intros Hlt. unfold Cache.evict. now rewrite bool_decide_false by lia.
Qed.

Lemma evict_defined_keys c m :
  JSMap.defined_keys m -> JSMap.defined_keys (Cache.evict c m).
Proof.
  intros Hm. unfold Cache.evict.
  destruct (bool_decide _); [| exact Hm].
  destruct (JSMap.first_key m) as [k0 |]; [| exact Hm].
  destruct (is_undefined k0); [exact Hm |].
  now apply defined_keys_remove.
Qed.

(** With a positive capacity and no [undefined] key, the eviction step
    leaves room for one entry. *)
Lemma evict_makes_room c m :
  0 < Cache.maxSize c ->
  JSMap.defined_keys m ->
  Z.of_nat (JSMap.size m) <= Cache.maxSize c ->
  Z.of_nat (JSMap.size (Cache.evict c m)) < Cache.maxSize c.
Proof.
  intros Hpos Hdef Hle. unfold Cache.evict.
  destruct (bool_decide_reflect
              (Cache.maxSize c <= Z.of_nat (JSMap.size m))) as [Hfull |];
    [| lia].
  destruct m as [| [k0 e0] m]; [simpl in *; lia |].
  apply Forall_cons in Hdef as [Hk0 _]. simpl in Hk0.
  unfold JSMap.size in *. simpl. rewrite Hk0. simpl.
  rewrite decide_True by reflexivity.
  pose proof (length_remove_le k0 m). simpl in Hle. lia.
Qed.

(** Neither its own removal nor the eviction step leaves [key] behind. *)
Lemma get_evict_remove key c :
  JSMap.get key (Cache.evict c (JSMap.remove key (Cache.cache c))) = None.
Proof.
  unfold Cache.evict.
  destruct (bool_decide _); [| apply get_remove_eq].
  destruct (JSMap.first_key _) as [k0 |]; [| apply get_remove_eq].
  destruct (is_undefined k0); [apply get_remove_eq |].
  simpl. destruct (decide (k0 = key)) as [-> | Hne].
  - apply get_remove_eq.
  - rewrite get_remove_ne by exact Hne. apply get_remove_eq.
Qed.

Lemma set_cache_eq now key v c :
  Cache.cache (Cache.set now key v c)
  = Cache.evict c (JSMap.remove key (Cache.cache c))
    ++ [(key, Cache.mkEntry v (Num.add (Finite now) (Cache.ttl c)))].
Proof.
  unfold Cache.set, Cache.with_cache. cbn [Cache.cache].
  assert (Hm1 : (if JSMap.has key (Cache.cache c)
                 then (JSMap.delete key (Cache.cache c)).2
                 else Cache.cache c)
                = JSMap.remove key (Cache.cache c)).
  { destruct (JSMap.has key (Cache.cache c)) eqn:Hhas; [reflexivity |].
    symmetry. now apply remove_absent, has_false. }
  rewrite Hm1. apply set_absent, get_evict_remove.
Qed.

Lemma set_maxSize now key v c :
  Cache.maxSize (Cache.set now key v c) = Cache.maxSize c.
Proof. reflexivity. Qed.

Lemma set_ttl now key v c :
  Cache.ttl (Cache.set now key v c) = Cache.ttl c.
Proof. reflexivity. Qed.

(** One [set] of a key other than [undefined] keeps the bound. *)
Lemma set_keeps_capacity now key v c :
  0 < Cache.maxSize c ->
  is_undefined key = false ->
  JSMap.defined_keys (Cache.cache c) ->
  Cache.size c <= Cache.maxSize c ->
  JSMap.defined_keys (Cache.cache (Cache.set now key v c))
  /\ Cache.size (Cache.set now key v c) <= Cache.maxSize c.
Proof.
  intros Hpos Hkey Hdef Hle. unfold Cache.size in *.
  rewrite set_cache_eq.
  pose proof (defined_keys_remove key _ Hdef) as Hdef1.
  pose proof (length_remove_le key (Cache.cache c)) as Hlen1.
  split.
  - apply defined_keys_snoc; [exact Hkey |].
    now apply evict_defined_keys.
  - pose proof (evict_makes_room c (JSMap.remove key (Cache.cache c))
                  Hpos Hdef1) as Hroom.
    unfold JSMap.size in *. rewrite length_app. simpl.
    lia.
Qed.

(** The capacity bound over any run of [set] calls none of whose keys is
    [undefined]: it holds after every call of the run. *)
Theorem capacity_invariant_defined_keys
    (calls : list (Z * K * V)) (c : Cache.LRUCache K V) (n : nat) :
  0 < Cache.maxSize c ->
  Cache.size c <= Cache.maxSize c ->
  JSMap.defined_keys (Cache.cache c) ->
  Forall (fun call => is_undefined call.1.2 = false) calls ->
  Cache.size (Cache.set_all (take n calls) c) <= Cache.maxSize c.
Proof.
  revert c n.
  induction calls as [| [[now key] v] calls IH]; intros c n Hpos Hle Hdef Hcalls.
  - now rewrite take_nil.
  - destruct n as [| n]; [exact Hle |].
    apply Forall_cons in Hcalls as [Hkey Hcalls]. simpl in Hkey.
    destruct (set_keeps_capacity now key v c Hpos Hkey Hdef Hle)
      as [Hdef' Hle'].
    simpl. unfold Cache.set_all in IH |- *. simpl.
    rewrite <- (set_maxSize now key v c).
    apply IH; auto.
Qed.

End Capacity.

(** ** The cache: what [get] and [has] do on a stored entry *)

Section Lookup.
Context {K V : Type} `{JSKey K}.
Implicit Types (c : Cache.LRUCache K V) (k key : K) (v : V) (now : Z).
Implicit Types (e : Cache.CacheEntry V).

Lemma with_cache_id c : Cache.with_cache c (Cache.cache c) = c.
Proof. now destruct c. Qed.

Lemma get_absent now key c :
  JSMap.get key (Cache.cache c) = None -> Cache.get now key c = (None, c).
Proof. intros Hm. unfold Cache.get. now rewrite Hm. Qed.

Lemma get_live now key c e :
  JSMap.get key (Cache.cache c) = Some e ->
  Cache.expired now e = false ->
  Cache.get now key c
  = (Some (Cache.value e),
     Cache.with_cache c (JSMap.remove key (Cache.cache c) ++ [(key, e)])).
Proof.
  intros Hm Hlive. unfold Cache.get. rewrite Hm, Hlive. simpl.
  now rewrite set_remove.
Qed.

Lemma get_expired now key c e :
  JSMap.get key (Cache.cache c) = Some e ->
  Cache.expired now e = true ->
  Cache.get now key c
  = (None, Cache.with_cache c (JSMap.remove key (Cache.cache c))).
Proof. intros Hm Hexp. unfold Cache.get. now rewrite Hm, Hexp. Qed.

Lemma has_absent now key c :
  JSMap.get key (Cache.cache c) = None -> Cache.has now key c = (false, c).
Proof. intros Hm. unfold Cache.has. now rewrite Hm. Qed.

(** A live hit of [has] leaves the cache as it was, order included. *)
Lemma has_live now key c e :
  JSMap.get key (Cache.cache c) = Some e ->
  Cache.expired now e = false ->
  Cache.has now key c = (true, c).
Proof. intros Hm Hlive. unfold Cache.has. now rewrite Hm, Hlive. Qed.

Lemma has_expired now key c e :
  JSMap.get key (Cache.cache c) = Some e ->
  Cache.expired now e = true ->
  Cache.has now key c
  = (false, Cache.with_cache c (JSMap.remove key (Cache.cache c))).
Proof. intros Hm Hexp. unfold Cache.has. now rewrite Hm, Hexp. Qed.

Lemma remove_snoc key e (m : JSMap.t K (Cache.CacheEntry V)) :
  JSMap.get key m = None -> JSMap.remove key (m ++ [(key, e)]) = m.
Proof.
  induction m as [| [k0 e0] m IH]; simpl.
  - now rewrite decide_True.
  - destruct (decide (k0 = key)); [discriminate |].
    intros Hm. now rewrite IH.
Qed.

Lemma get_after_set now key v c :
  JSMap.get key (Cache.cache (Cache.set now key v c))
  = Some (Cache.mkEntry v (Num.add (Finite now) (Cache.ttl c))).
Proof.
  rewrite set_cache_eq, get_snoc, get_evict_remove.
  now rewrite decide_True.
Qed.

Lemma expired_at_insertion now v (d : number) :
  Num.nonneg d ->
  Cache.expired now (Cache.mkEntry v (Num.add (Finite now) d)) = false.
Proof.
  unfold Cache.expired. destruct d as [t |]; simpl; [| reflexivity].
  intros Ht. apply bool_decide_eq_false. lia.
Qed.

End Lookup.

(** C9 as stated fails: the constructor takes any [ttl], and with a
    negative one the entry [set] has just stored is already expired, so a
    [get] at the same clock reading returns absent, not the value. *)
Lemma get_after_set_is_absent_with_negative_ttl :
  ~ (forall (c : Cache.LRUCache string Z) (now : Z) (key : string) (v : Z),
        (Cache.get now key (Cache.set now key v c)).1 = Some v).
Proof.
  intros Hclaim.
  specialize (Hclaim (Cache.new (Cache.mkOptions (Some 10) (Some (Finite (-1)))))
                5 "k" 42).
  assert (Hget : (Cache.get 5 "k"
                    (Cache.set 5 "k" 42
                       (Cache.new
                          (Cache.mkOptions (Some 10) (Some (Finite (-1)))))
                     : Cache.LRUCache string Z)).1 = None)
    by reflexivity.
  rewrite Hclaim in Hget. discriminate.
Qed.

(** C9 (amended): [set] always stores the new entry, as the newest one,
    so it is never the eviction victim: for every capacity (0 included),
    every [ttl], key and value, the entry is in the map right after the
    [set]; a [get] at the same clock reading returns the value just
    written when the [ttl] is not negative, and absent when it is
    negative (the entry is stored already expired); a cache constructed
    with [maxSize = 0] holds one entry after its first [set], above its
    capacity. *)
Theorem set_stores_entry_for_every_maxSize
    {K V : Type} `{JSKey K} (now : Z) (key : K) (v : V)
    (c : Cache.LRUCache K V) :
  let c1 := Cache.set now key v c in
  let e := Cache.mkEntry v (Num.add (Finite now) (Cache.ttl c)) in
  last (Cache.cache c1) = Some (key, e)
  /\ JSMap.get key (Cache.cache c1) = Some e
  /\ 1 <= Cache.size c1
  /\ (Num.nonneg (Cache.ttl c) -> (Cache.get now key c1).1 = Some v)
  /\ (~ Num.nonneg (Cache.ttl c) -> (Cache.get now key c1).1 = None)
  /\ (forall o : Cache.CacheOptions,
        Cache.opt_maxSize o = Some 0 ->
        let z : Cache.LRUCache K V := Cache.new o in
        Cache.maxSize z = 0
        /\ Cache.size (Cache.set now key v z) = 1
        /\ JSMap.get key (Cache.cache (Cache.set now key v z))
           = Some (Cache.mkEntry v (Num.add (Finite now) (Cache.ttl z)))).
Proof.
  intros c1 e. subst c1 e.
  pose proof (get_after_set now key v c) as Hget.
  split; [| split; [| split; [| split; [| split]]]].
  - rewrite set_cache_eq. apply last_snoc.
  - exact Hget.
  - unfold Cache.size, JSMap.size. rewrite set_cache_eq, length_app.
    simpl. lia.
  - intros Httl. rewrite (get_live _ _ _ _ Hget); [reflexivity |].
    now apply expired_at_insertion.
  - intros Hneg. rewrite (get_expired _ _ _ _ Hget); [reflexivity |].
    unfold Cache.expired. destruct (Cache.ttl c) as [t |]; simpl in *;
      [| now destruct Hneg].
    apply bool_decide_eq_true. lia.
  - intros o Ho z.
    assert (Hz : Cache.maxSize z = 0) by (subst z; simpl; now rewrite Ho).
    split; [exact Hz |]. split; [| apply get_after_set].
    unfold Cache.size, JSMap.size. rewrite set_cache_eq.
    subst z. simpl. unfold Cache.evict. simpl.
    now destruct (bool_decide _).
Qed.

Lemma set_stores_entry_for_every_maxSize_witness :
  let c : Cache.LRUCache string Z :=
    Cache.new (Cache.mkOptions (Some 0) (Some (Finite 1000))) in
  Num.nonneg (Cache.ttl c)
  /\ (Cache.get 5 "k" (Cache.set 5 "k" 42 c)).1 = Some 42
  /\ Cache.size (Cache.set 5 "k" 42 c) = 1.
Proof.
  intros c.
  assert (Httl : Num.nonneg (Cache.ttl c)) by (simpl; lia).
  pose proof (set_stores_entry_for_every_maxSize 5 "k" 42 c) as Hc.
  simpl in Hc. destruct Hc as (_ & _ & _ & Hget & _).
  split; [exact Httl |]. split; [exact (Hget Httl) |].
  reflexivity.
Defined.

(** C10: the eviction guard reads an oldest key equal to [undefined] as
    an empty map: when the least-recently-used entry of a cache at
    capacity is keyed by [undefined], [set] of a fresh key evicts nothing,
    appends the entry, and the cache holds [maxSize + 1] entries. *)
Theorem undefined_oldest_key_blocks_eviction
    {K V : Type} `{JSKey K} (now : Z) (key : K) (v : V)
    (c : Cache.LRUCache K V) (u : K) :
  JSMap.first_key (Cache.cache c) = Some u ->
  is_undefined u = true ->
  Cache.size c = Cache.maxSize c ->
  JSMap.get key (Cache.cache c) = None ->
  Cache.cache (Cache.set now key v c)
  = Cache.cache c
    ++ [(key, Cache.mkEntry v (Num.add (Finite now) (Cache.ttl c)))]
  /\ Cache.size (Cache.set now key v c) = Cache.maxSize c + 1.
Proof.
  intros Hfirst Hu Hfull Hfresh.
  assert (Hcache : Cache.cache (Cache.set now key v c)
                   = Cache.cache c
                     ++ [(key, Cache.mkEntry v
                                 (Num.add (Finite now) (Cache.ttl c)))]).
  { rewrite set_cache_eq, (remove_absent _ _ Hfresh).
    unfold Cache.evict. rewrite Hfirst, Hu.
    now destruct (bool_decide _). }
  split; [exact Hcache |].
  unfold Cache.size, JSMap.size in *. rewrite Hcache, length_app. simpl. lia.
Qed.

Lemma undefined_oldest_key_blocks_eviction_witness :
  let c : Cache.LRUCache (option string) Z :=
    Cache.set 0 None 1 (Cache.new (Cache.mkOptions (Some 1) None)) in
  Cache.size (Cache.set 0 (Some "b") 2 c) = Cache.maxSize c + 1.
Proof.
  intros c.
  refine (proj2 (undefined_oldest_key_blocks_eviction
                   0 (Some "b") 2 c None _ _ _ _)); reflexivity.
Defined.

(** C1 (failing input): on a cache with [maxSize = 1] the two [set]
    calls with the distinct keys [undefined] and ["b"] leave two entries:
    the size after the second call exceeds the capacity. *)
Theorem capacity_exceeded_when_oldest_key_is_undefined :
  let c0 : Cache.LRUCache (option string) Z :=
    Cache.new (Cache.mkOptions (Some 1) None) in
  let calls : list (Z * option string * Z) :=
    [(0, None, 1); (0, Some "b", 2)] in
  0 < Cache.maxSize c0
  /\ NoDup (map (fun call => call.1.2) calls)
  /\ JSMap.keys (Cache.cache (Cache.set_all calls c0)) = [None; Some "b"]
  /\ Cache.size (Cache.set_all calls c0) = 2
  /\ ~ Cache.size (Cache.set_all calls c0) <= Cache.maxSize c0.
Proof.
  simpl. repeat split.
  - apply NoDup_cons. split; [| apply NoDup_singleton].
    intros Hin. apply list_elem_of_singleton in Hin. discriminate.
  - intros Hle. vm_compute in Hle. now apply Hle.
Qed.

(** ** The cache: expiry *)

Section Expiry.
Context {K V : Type} `{JSKey K}.
Implicit Types (c : Cache.LRUCache K V) (k key : K) (v : V) (now : Z).

Lemma remove_after_set now0 key v c :
  JSMap.remove key (Cache.cache (Cache.set now0 key v c))
  = Cache.evict c (JSMap.remove key (Cache.cache c)).
Proof.
  rewrite set_cache_eq. apply remove_snoc, get_evict_remove.
Qed.

(** The lazy removal that follows a [set] of the same key takes one
    entry out of the count. *)
Lemma size_swept_after_set now0 key v c :
  Cache.size
    (Cache.with_cache (Cache.set now0 key v c)
       (JSMap.remove key (Cache.cache (Cache.set now0 key v c))))
  = Cache.size (Cache.set now0 key v c) - 1.
Proof.
  pose proof (remove_after_set now0 key v c) as Hrem.
  pose proof (set_cache_eq now0 key v c) as Hset.
  remember (Cache.set now0 key v c) as c1 eqn:Hc1. clear Hc1.
  unfold Cache.size, Cache.with_cache, JSMap.size. cbn [Cache.cache].
  rewrite Hrem, Hset, length_app. simpl. lia.
Qed.

Lemma expired_after_ttl now0 now v (t : Z) :
  Cache.expired now (Cache.mkEntry v (Num.add (Finite now0) (Finite t)))
  = bool_decide (now0 + t < now).
Proof. reflexivity. Qed.

End Expiry.

(** C3: with a finite [ttl], after [set(k, v)] at clock time [T] the
    entry expires at [T + ttl].  On any cache that still holds that entry
    (no eviction or overwrite in between), a [get(k)] or [has(k)] at a
    time strictly greater than [T + ttl] reports absent / false and
    removes the entry; at a time at most [T + ttl], [get(k)] returns [v]
    and [has(k)] is true. *)
Theorem ttl_expiry_boundary
    {K V : Type} `{JSKey K} (T now t : Z) (key : K) (v : V)
    (c : Cache.LRUCache K V) :
  Cache.ttl c = Finite t ->
  let c1 := Cache.set T key v c in
  let e := Cache.mkEntry v (Finite (T + t)) in
  JSMap.get key (Cache.cache c1) = Some e
  /\ (forall c' : Cache.LRUCache K V,
        JSMap.get key (Cache.cache c') = Some e ->
        (T + t < now ->
           let rest :=
             Cache.with_cache c' (JSMap.remove key (Cache.cache c')) in
           Cache.get now key c' = (None, rest)
           /\ Cache.has now key c' = (false, rest)
           /\ JSMap.has key (Cache.cache rest) = false
           /\ (forall k, k <> key ->
                 JSMap.get k (Cache.cache rest)
                 = JSMap.get k (Cache.cache c')))
        /\ (now <= T + t ->
              (Cache.get now key c').1 = Some v
              /\ Cache.has now key c' = (true, c')))
  /\ (T + t < now ->
        Cache.size (Cache.get now key c1).2 = Cache.size c1 - 1
        /\ Cache.size (Cache.has now key c1).2 = Cache.size c1 - 1).
Proof.
  intros Httl c1 e. subst c1 e.
  pose proof (get_after_set T key v c) as Hget. rewrite Httl in Hget.
  cbn [Num.add] in Hget.
  pose proof (expired_after_ttl T now v t) as Hexp. cbn [Num.add] in Hexp.
  split; [exact Hget |]. split.
  - intros c' Hc'. split.
    + intros Hlate. rewrite bool_decide_true in Hexp by exact Hlate.
      rewrite (get_expired _ _ _ _ Hc' Hexp), (has_expired _ _ _ _ Hc' Hexp).
      split; [reflexivity |]. split; [reflexivity |]. split.
      * apply has_false, get_remove_eq.
      * intros k Hk. simpl. apply get_remove_ne. congruence.
    + intros Hearly. rewrite bool_decide_false in Hexp by lia.
      rewrite (get_live _ _ _ _ Hc' Hexp), (has_live _ _ _ _ Hc' Hexp).
      split; reflexivity.
  - intros Hlate. rewrite bool_decide_true in Hexp by exact Hlate.
    rewrite (get_expired _ _ _ _ Hget Hexp), (has_expired _ _ _ _ Hget Hexp).
    cbn [snd]. split; apply size_swept_after_set.
Qed.

Lemma ttl_expiry_boundary_witness :
  let c : Cache.LRUCache string Z :=
    Cache.new (Cache.mkOptions (Some 10) (Some (Finite 1000))) in
  Cache.ttl c = Finite 1000
  /\ (Cache.get 1001 "key" (Cache.set 0 "key" 42 c)).1 = None
  /\ (Cache.has 1001 "key" (Cache.set 0 "key" 42 c)).1 = false
  /\ (Cache.get 1000 "key" (Cache.set 0 "key" 42 c)).1 = Some 42
  /\ (Cache.has 1000 "key" (Cache.set 0 "key" 42 c)).1 = true.
Proof.
  intros c.
  destruct (ttl_expiry_boundary 0 1001 1000 "key" 42 c eq_refl)
    as (Hstored & Hlookup & _).
  destruct (Hlookup _ Hstored) as [Hlate _].
  destruct (Hlate ltac:(lia)) as (Hg & Hh & _).
  destruct (ttl_expiry_boundary 0 1000 1000 "key" 42 c eq_refl)
    as (_ & Hlookup' & _).
  destruct (Hlookup' _ Hstored) as [_ Hearly].
  destruct (Hearly ltac:(lia)) as (Hg' & Hh').
  split; [reflexivity |].
  rewrite Hg, Hh, Hg', Hh'. repeat split.
Defined.

(** C7: [size] counts entries physically in the map: after [set(k, v)]
    with a finite [ttl], moving the clock past the expiry without a
    [get], [has] or [delete] of [k] leaves [size] as it was, the expired
    entry still counted, though [get(k)] and [has(k)] report absent (and
    only that sweep takes the entry out of the count). *)
Theorem size_counts_expired_unswept_entries
    {K V : Type} `{JSKey K} (t d : Z) (key : K) (v : V)
    (w : Cache.World K V) :
  Cache.ttl (Cache.lru w) = Finite t ->
  t < d ->
  let w1 := Cache.w_set key v w in
  let w2 := Cache.advanceTimersByTime d w1 in
  Cache.w_size w2 = Cache.w_size w1
  /\ JSMap.has key (Cache.cache (Cache.lru w2)) = true
  /\ 1 <= Cache.w_size w2
  /\ (Cache.w_get key w2).1 = None
  /\ (Cache.w_has key w2).1 = false
  /\ Cache.w_size (Cache.w_get key w2).2 = Cache.w_size w1 - 1
  /\ Cache.w_size (Cache.w_has key w2).2 = Cache.w_size w1 - 1.
Proof.
  intros Httl Hd w1 w2. subst w1 w2.
  destruct w as [T c]. simpl in Httl.
  unfold Cache.w_size, Cache.w_get, Cache.w_has, Cache.w_set,
    Cache.advanceTimersByTime.
  cbn [Cache.clock Cache.lru fst snd].
  pose proof (get_after_set T key v c) as Hget. rewrite Httl in Hget.
  assert (Hexp : Cache.expired (T + d)
                   (Cache.mkEntry v (Num.add (Finite T) (Finite t))) = true)
    by (rewrite expired_after_ttl; apply bool_decide_eq_true; lia).
  rewrite (get_expired _ _ _ _ Hget Hexp), (has_expired _ _ _ _ Hget Hexp).
  cbn [fst snd].
  pose proof (size_swept_after_set T key v c) as Hsize.
  split; [reflexivity |]. split; [| split].
  - apply has_true. eauto.
  - unfold Cache.size, JSMap.size. rewrite set_cache_eq, length_app.
    simpl. lia.
  - repeat split; exact Hsize.
Qed.

Lemma size_counts_expired_unswept_entries_witness :
  let w : Cache.World string Z :=
    Cache.mkWorld 0
      (Cache.new (Cache.mkOptions (Some 10) (Some (Finite 1000)))) in
  let w2 := Cache.advanceTimersByTime 1001 (Cache.w_set "k" 42 w) in
  Cache.w_size w2 = 1 /\ (Cache.w_get "k" w2).1 = None.
Proof.
  intros w w2.
  destruct (size_counts_expired_unswept_entries 1000 1001 "k" 42 w eq_refl
              ltac:(lia)) as (Hsize & _ & _ & Hget & _).
  split; [exact Hsize | exact Hget].
Defined.

(** ** The cache: [delete] *)

(** C6 as stated fails: an entry whose [expiresAt] has passed but which
    no [get] or [has] has swept is still in the map, and [delete] of its
    key returns true. *)
Lemma delete_of_expired_unswept_key_returns_true :
  ~ (forall (c : Cache.LRUCache string Z) (key : string) (now : Z),
        (JSMap.get key (Cache.cache c) = None
         \/ exists e, JSMap.get key (Cache.cache c) = Some e
                      /\ Cache.expired now e = true) ->
        (Cache.delete key c).1 = false).
Proof.
  intros Hclaim.
  pose (c := Cache.set 0 "k" 42
               (Cache.new (Cache.mkOptions (Some 10) (Some (Finite 1000))))
             : Cache.LRUCache string Z).
  specialize (Hclaim c "k" 2000).
  assert (Hdel : (Cache.delete "k" c).1 = true) by reflexivity.
  rewrite Hclaim in Hdel; [discriminate |].
  right. exists (Cache.mkEntry 42 (Finite 1000)). split; reflexivity.
Qed.

(** C6 (amended): [delete(key)] returns false exactly when no entry is
    stored under [key] (never set, already deleted or evicted, or expired
    and already swept by a [get] or [has]), and then leaves the cache as
    it was; on a stored entry, expired or not, it returns true and
    removes the entry. *)
Theorem delete_returns_whether_an_entry_was_stored
    {K V : Type} `{JSKey K} (key : K) (c : Cache.LRUCache K V) :
  ((Cache.delete key c).1 = false <-> JSMap.get key (Cache.cache c) = None)
  /\ (JSMap.get key (Cache.cache c) = None -> (Cache.delete key c).2 = c)
  /\ JSMap.get key (Cache.cache (Cache.delete key c).2) = None
  /\ (forall k, k <> key ->
        JSMap.get k (Cache.cache (Cache.delete key c).2)
        = JSMap.get k (Cache.cache c))
  /\ (forall (now : Z) (e : Cache.CacheEntry V),
        JSMap.get key (Cache.cache c) = Some e ->
        Cache.expired now e = true ->
        (Cache.delete key c).1 = true
        /\ (Cache.delete key (Cache.has now key c).2).1 = false
        /\ (Cache.delete key (Cache.get now key c).2).1 = false).
Proof.
  unfold Cache.delete, JSMap.delete. simpl.
  split; [apply has_false |]. split; [| split; [| split]].
  - intros Hm. rewrite (remove_absent _ _ Hm). apply with_cache_id.
  - apply get_remove_eq.
  - intros k Hk. apply get_remove_ne. congruence.
  - intros now e Hm Hexp.
    rewrite (has_expired _ _ _ _ Hm Hexp), (get_expired _ _ _ _ Hm Hexp).
    simpl. split; [apply has_true; eauto |].
    split; apply has_false, get_remove_eq.
Qed.

(** ** The cache: recency order *)

(** Evaluates one cache call on an explicit cache, deciding the key
    comparisons and capacity tests from the facts in the context. *)
Ltac run_cache :=
  unfold Scenario.holding, Scenario.ent, Scenario.fixture,
    Cache.set, Cache.get, Cache.has, Cache.evict, Cache.expired,
    Cache.with_cache, Cache.new, JSMap.delete, JSMap.has, JSMap.size,
    JSMap.keys, JSMap.empty;
  repeat first
    [ progress simpl
    | rewrite decide_True by congruence
    | rewrite decide_False by congruence
    | rewrite bool_decide_true by lia
    | rewrite bool_decide_false by lia
    | match goal with
      | Hu : is_undefined ?k = false |- context [is_undefined ?k] =>
          rewrite Hu
      end ];
  try reflexivity.

Section Recency.
Context {K V : Type} `{JSKey K}.
Variables (a b c d : K) (va vb vc vd : V).
Hypothesis Hab : a <> b.
Hypothesis Hac : a <> c.
Hypothesis Had : a <> d.
Hypothesis Hbc : b <> c.
Hypothesis Hbd : b <> d.
Hypothesis Hcd : c <> d.

Import Scenario.

Lemma abc_holding t1 t2 t3 :
  abc a b c va vb vc t1 t2 t3
  = holding [(a, ent va); (b, ent vb); (c, ent vc)].
Proof using Hab Hac Hbc.
  unfold abc.
  assert (Cache.set t1 a va fixture = holding [(a, ent va)]) as ->
    by run_cache.
  assert (Cache.set t2 b vb (holding [(a, ent va)])
          = holding [(a, ent va); (b, ent vb)]) as -> by run_cache.
  run_cache.
Qed.

(** A full fixture evicts its oldest key, when that key is not
    [undefined], and appends the fresh one. *)
Lemma set_on_full now (k1 k2 k3 k : K) (v1 v2 v3 v : V) :
  is_undefined k1 = false ->
  k1 <> k2 -> k1 <> k3 -> k1 <> k -> k2 <> k3 -> k2 <> k -> k3 <> k ->
  Cache.set now k v (holding [(k1, ent v1); (k2, ent v2); (k3, ent v3)])
  = holding [(k2, ent v2); (k3, ent v3); (k, ent v)].
Proof. intros. run_cache. Qed.

(** A hit of [get] on the oldest key of the fixture moves it to the
    newest position. *)
Lemma get_oldest now (k1 k2 k3 : K) (v1 v2 v3 : V) :
  k1 <> k2 -> k1 <> k3 ->
  Cache.get now k1 (holding [(k1, ent v1); (k2, ent v2); (k3, ent v3)])
  = (Some v1, holding [(k2, ent v2); (k3, ent v3); (k1, ent v1)]).
Proof. intros. run_cache. Qed.

Lemma get_missing now (k1 k2 k3 k : K) (v1 v2 v3 : V) :
  k1 <> k -> k2 <> k -> k3 <> k ->
  Cache.get now k (holding [(k1, ent v1); (k2, ent v2); (k3, ent v3)])
  = (None, holding [(k1, ent v1); (k2, ent v2); (k3, ent v3)]).
Proof. intros. run_cache. Qed.

Lemma get_middle now (k1 k2 k3 : K) (v1 v2 v3 : V) :
  k1 <> k2 -> k2 <> k3 ->
  Cache.get now k2 (holding [(k1, ent v1); (k2, ent v2); (k3, ent v3)])
  = (Some v2, holding [(k1, ent v1); (k3, ent v3); (k2, ent v2)]).
Proof. intros. run_cache. Qed.

Lemma get_newest now (k1 k2 k3 : K) (v1 v2 v3 : V) :
  k1 <> k3 -> k2 <> k3 ->
  Cache.get now k3 (holding [(k1, ent v1); (k2, ent v2); (k3, ent v3)])
  = (Some v3, holding [(k1, ent v1); (k2, ent v2); (k3, ent v3)]).
Proof. intros. run_cache. Qed.

End Recency.

(** C2: the eviction victim is the least-recently-touched key, and a hit
    of [get] is a touch.  After [a], [b], [c] go into a capacity-3 cache,
    [set] of [d] evicts [a]: [get(a)] is absent and [get(b)], [get(c)],
    [get(d)] hit.  With a [get(a)] before the [set] of [d], the victim is
    [b] and [a] stays, the read having made [a] the most recently used. *)
Theorem eviction_victim_is_least_recently_touched
    {K V : Type} `{JSKey K} (a b c d : K) (va vb vc vd : V)
    (t1 t2 t3 t4 t5 t6 t7 t8 t9 : Z) :
  a <> b -> a <> c -> a <> d -> b <> c -> b <> d -> c <> d ->
  is_undefined a = false -> is_undefined b = false ->
  let full := Scenario.abc a b c va vb vc t1 t2 t3 in
  (* set d on [a; b; c] *)
  (let c4 := Cache.set t4 d vd full in
   JSMap.keys (Cache.cache c4) = [b; c; d]
   /\ Cache.size c4 = 3
   /\ (Cache.get_all [(t5, a); (t6, b); (t7, c); (t8, d)] c4).1
      = [None; Some vb; Some vc; Some vd])
  (* get a, then set d *)
  /\ (let r := Cache.get t4 a full in
      let c5 := Cache.set t5 d vd r.2 in
      r.1 = Some va
      /\ JSMap.keys (Cache.cache r.2) = [b; c; a]
      /\ JSMap.keys (Cache.cache c5) = [c; a; d]
      /\ (Cache.get_all [(t6, a); (t7, b); (t8, c); (t9, d)] c5).1
         = [Some va; None; Some vc; Some vd]).
Proof.
  intros Hab Hac Had Hbc Hbd Hcd Ha Hb full. subst full.
  rewrite abc_holding by assumption.
  split.
  - rewrite set_on_full by assumption.
    split; [reflexivity |]. split; [reflexivity |].
    cbn [Cache.get_all].
    rewrite get_missing by congruence. cbn [fst snd].
    rewrite get_oldest by congruence. cbn [fst snd].
    rewrite get_oldest by congruence. cbn [fst snd].
    rewrite get_oldest by congruence. reflexivity.
  - rewrite get_oldest by assumption. cbn [fst snd].
    rewrite set_on_full by congruence.
    split; [reflexivity |]. split; [reflexivity |]. split; [reflexivity |].
    cbn [Cache.get_all].
    rewrite get_middle by congruence. cbn [fst snd].
    rewrite get_missing by congruence. cbn [fst snd].
    rewrite get_oldest by congruence. cbn [fst snd].
    rewrite get_oldest by congruence. reflexivity.
Qed.

Lemma eviction_victim_is_least_recently_touched_witness :
  (let c4 : Cache.LRUCache string Z :=
     Cache.set 0 "d" 4 (Scenario.abc "a" "b" "c" 1 2 3 0 0 0) in
   (Cache.get_all [(0, "a"); (0, "b"); (0, "c"); (0, "d")] c4).1
   = [None; Some 2; Some 3; Some 4])
  /\ (let r := Cache.get 0 "a"
                 (Scenario.abc "a" "b" "c" (1 : Z) 2 3 0 0 0) in
      let c5 := Cache.set 0 "d" 4 r.2 in
      (Cache.get_all [(0, "a"); (0, "b"); (0, "c"); (0, "d")] c5).1
      = [Some 1; None; Some 3; Some 4]).
Proof.
  destruct (eviction_victim_is_least_recently_touched
              "a" "b" "c" "d" (1 : Z) 2 3 4 0 0 0 0 0 0 0 0 0
              ltac:(discriminate) ltac:(discriminate) ltac:(discriminate)
              ltac:(discriminate) ltac:(discriminate) ltac:(discriminate)
              eq_refl eq_refl)
    as [(_ & _ & Hlru) (_ & _ & _ & Hpromoted)].
  split; [exact Hlru | exact Hpromoted].
Defined.

(** C5: [has] does not promote on a live hit.  After [a], [b], [c] go
    into a capacity-3 cache, [has(a)] returns true and leaves the cache,
    recency order included, as it was, so [set] of a fresh key [d] still
    evicts [a]; after a [get(a)] instead, the same [set] evicts [b]. *)
Theorem has_does_not_promote
    {K V : Type} `{JSKey K} (a b c d : K) (va vb vc vd : V)
    (t1 t2 t3 t4 t5 t6 : Z) :
  a <> b -> a <> c -> a <> d -> b <> c -> b <> d -> c <> d ->
  is_undefined a = false -> is_undefined b = false ->
  let full := Scenario.abc a b c va vb vc t1 t2 t3 in
  Cache.has t4 a full = (true, full)
  /\ JSMap.keys (Cache.cache (Cache.has t4 a full).2) = [a; b; c]
  /\ (let c5 := Cache.set t5 d vd (Cache.has t4 a full).2 in
      JSMap.keys (Cache.cache c5) = [b; c; d]
      /\ Cache.get t6 a c5 = (None, c5)
      /\ Cache.has t6 a c5 = (false, c5))
  /\ JSMap.keys (Cache.cache (Cache.set t5 d vd (Cache.get t4 a full).2))
     = [c; a; d].
Proof.
  intros Hab Hac Had Hbc Hbd Hcd Ha Hb full. subst full.
  rewrite abc_holding by assumption.
  assert (Hhas : Cache.has t4 a
                   (Scenario.holding
                      [(a, Scenario.ent va); (b, Scenario.ent vb);
                       (c, Scenario.ent vc)])
                 = (true,
                    Scenario.holding
                      [(a, Scenario.ent va); (b, Scenario.ent vb);
                       (c, Scenario.ent vc)]))
    by (apply (has_live _ _ _ (Scenario.ent va)); run_cache).
  rewrite Hhas. cbn [fst snd].
  split; [reflexivity |]. split; [reflexivity |]. split.
  - rewrite set_on_full by assumption.
    split; [reflexivity |]. split.
    + apply get_missing; congruence.
    + apply has_absent. run_cache.
  - rewrite get_oldest by assumption. cbn [snd].
    now rewrite set_on_full by congruence.
Qed.

Lemma has_does_not_promote_witness :
  let full : Cache.LRUCache string Z :=
    Scenario.abc "a" "b" "c" 1 2 3 0 0 0 in
  (Cache.has 0 "a" full).1 = true
  /\ JSMap.keys (Cache.cache (Cache.set 0 "d" 4 (Cache.has 0 "a" full).2))
     = ["b"; "c"; "d"].
Proof.
  intros full.
  destruct (has_does_not_promote
              "a" "b" "c" "d" (1 : Z) 2 3 4 0 0 0 0 0 0
              ltac:(discriminate) ltac:(discriminate) ltac:(discriminate)
              ltac:(discriminate) ltac:(discriminate) ltac:(discriminate)
              eq_refl eq_refl)
    as (Hhas & _ & (Hkeys & _) & _).
  fold full in Hhas, Hkeys.
  split; [now rewrite Hhas | exact Hkeys].
Defined.

(** ** The cache: overwriting *)

(** C4: overwriting a stored key evicts no third key.  On a cache within
    its capacity (capacity 3 holding [a], [b], [c], say), [set] of a
    stored key with a new value leaves every other key with its entry,
    hence as present and as live as before, leaves [size] as it was, and
    a later [get] of the key, not after the new expiry, returns the new
    value. *)
Theorem overwrite_evicts_no_third_key
    {K V : Type} `{JSKey K} (now now' : Z) (key : K) (newValue : V)
    (c : Cache.LRUCache K V) :
  JSMap.wf (Cache.cache c) ->
  JSMap.has key (Cache.cache c) = true ->
  Cache.size c <= Cache.maxSize c ->
  let c1 := Cache.set now key newValue c in
  (forall k, k <> key ->
      JSMap.get k (Cache.cache c1) = JSMap.get k (Cache.cache c)
      /\ (Cache.has now' k c1).1 = (Cache.has now' k c).1)
  /\ Cache.size c1 = Cache.size c
  /\ JSMap.wf (Cache.cache c1)
  /\ (Cache.expired now'
        (Cache.mkEntry newValue (Num.add (Finite now) (Cache.ttl c)))
      = false ->
      (Cache.get now' key c1).1 = Some newValue).
Proof.
  intros Hwf Hhas Hle c1. subst c1.
  apply has_true in Hhas as [e0 He0].
  pose proof (length_remove_wf _ _ _ Hwf He0) as Hlen.
  assert (Hroom : Cache.evict c (JSMap.remove key (Cache.cache c))
                  = JSMap.remove key (Cache.cache c)).
  { apply evict_below. unfold Cache.size, JSMap.size in *. lia. }
  assert (Hcache : Cache.cache (Cache.set now key newValue c)
                   = JSMap.remove key (Cache.cache c)
                     ++ [(key, Cache.mkEntry newValue
                                 (Num.add (Finite now) (Cache.ttl c)))])
    by now rewrite set_cache_eq, Hroom.
  assert (Hframe : forall k, k <> key ->
            JSMap.get k (Cache.cache (Cache.set now key newValue c))
            = JSMap.get k (Cache.cache c)).
  { intros k Hk. rewrite Hcache, get_snoc.
    rewrite get_remove_ne by congruence.
    destruct (JSMap.get k (Cache.cache c)); [reflexivity |].
    now rewrite decide_False by congruence. }
  split; [| split; [| split]].
  - intros k Hk. split; [now apply Hframe |].
    unfold Cache.has. rewrite (Hframe k Hk).
    destruct (JSMap.get k (Cache.cache c)) as [e |]; [| reflexivity].
    now destruct (Cache.expired now' e).
  - unfold Cache.size, JSMap.size in *. rewrite Hcache, length_app.
    simpl. lia.
  - rewrite Hcache.
    rewrite <- (set_absent key _ (JSMap.remove key (Cache.cache c)))
      by apply get_remove_eq.
    apply wf_set_absent; [apply get_remove_eq | now apply wf_remove].
  - intros Hlive.
    now rewrite (get_live _ _ _ _ (get_after_set now key newValue c) Hlive).
Qed.

Lemma overwrite_evicts_no_third_key_witness :
  let full : Cache.LRUCache string Z :=
    Scenario.abc "a" "b" "c" 1 2 3 0 0 0 in
  let c1 := Cache.set 0 "b" 20 full in
  (JSMap.has "a" (Cache.cache c1) = true
   /\ JSMap.has "c" (Cache.cache c1) = true)
  /\ Cache.size c1 = 3
  /\ (Cache.get 7 "b" c1).1 = Some 20.
Proof.
  intros full c1.
  assert (Hwf : JSMap.wf (Cache.cache full)).
  { apply (bool_decide_unpack _). vm_compute. exact I. }
  assert (Hhas : JSMap.has "b" (Cache.cache full) = true)
    by (vm_compute; reflexivity).
  assert (Hle : Cache.size full <= Cache.maxSize full)
    by (vm_compute; discriminate).
  destruct (overwrite_evicts_no_third_key 0 7 "b" 20 full Hwf Hhas Hle)
    as (Hframe & Hsize & _ & Hget).
  fold c1 in Hframe, Hsize, Hget.
  destruct (Hframe "a" ltac:(discriminate)) as [Hga _].
  destruct (Hframe "c" ltac:(discriminate)) as [Hgc _].
  split; [split |].
  - apply has_true. rewrite Hga. eexists. reflexivity.
  - apply has_true. rewrite Hgc. eexists. reflexivity.
  - split; [rewrite Hsize; reflexivity | apply Hget; reflexivity].
Defined.

(** ** The representation invariant of the map

    Every cache operation keeps the keys of the underlying map unique, so
    the association list stands for a [Map] throughout. *)

Section WellFormed.
Context {K V : Type} `{JSKey K}.
Implicit Types (c : Cache.LRUCache K V) (key : K) (v : V) (now : Z).

Lemma new_wf (o : Cache.CacheOptions) :
  JSMap.wf (Cache.cache (Cache.new o : Cache.LRUCache K V)).
Proof. apply NoDup_nil_2. Qed.

Lemma evict_wf c (m : JSMap.t K (Cache.CacheEntry V)) :
  JSMap.wf m -> JSMap.wf (Cache.evict c m).
Proof.
  intros Hwf. unfold Cache.evict.
  destruct (bool_decide _); [| exact Hwf].
  destruct (JSMap.first_key m) as [k0 |]; [| exact Hwf].
  destruct (is_undefined k0); [exact Hwf | now apply wf_remove].
Qed.

Lemma set_wf now key v c :
  JSMap.wf (Cache.cache c) -> JSMap.wf (Cache.cache (Cache.set now key v c)).
Proof.
  intros Hwf. rewrite set_cache_eq.
  rewrite <- set_absent by apply get_evict_remove.
  apply wf_set_absent; [apply get_evict_remove |].
  now apply evict_wf, wf_remove.
Qed.

Lemma get_wf now key c :
  JSMap.wf (Cache.cache c) -> JSMap.wf (Cache.cache (Cache.get now key c).2).
Proof.
  intros Hwf. unfold Cache.get.
  destruct (JSMap.get key (Cache.cache c)) as [e |]; [| exact Hwf].
  destruct (Cache.expired now e); simpl.
  - now apply wf_remove.
  - apply wf_set_absent; [apply get_remove_eq | now apply wf_remove].
Qed.

Lemma has_wf now key c :
  JSMap.wf (Cache.cache c) -> JSMap.wf (Cache.cache (Cache.has now key c).2).
Proof.
  intros Hwf. unfold Cache.has.
  destruct (JSMap.get key (Cache.cache c)) as [e |]; [| exact Hwf].
  destruct (Cache.expired now e); simpl; [now apply wf_remove | exact Hwf].
Qed.

Lemma delete_wf key c :
  JSMap.wf (Cache.cache c) -> JSMap.wf (Cache.cache (Cache.delete key c).2).
Proof. intros Hwf. simpl. now apply wf_remove. Qed.

End WellFormed.

(** * Further properties of the cache *)

(** ** Capacity over any run of calls *)

Section CapacityOfRuns.
Context {K V : Type} `{JSKey K}.
Implicit Types (c : Cache.LRUCache K V) (key : K) (v : V) (now : Z).
Implicit Types (call : CacheRun.Call K V).

Lemma stored_key_is_listed key (m : JSMap.t K (Cache.CacheEntry V)) e :
  JSMap.get key m = Some e -> key ∈ JSMap.keys m.
Proof.
  intros Hm. destruct (decide (key ∈ JSMap.keys m)) as [Hin | Hout];
    [exact Hin |].
  apply get_keys in Hout. congruence.
Qed.

Lemma stored_key_is_defined key (m : JSMap.t K (Cache.CacheEntry V)) e :
  JSMap.defined_keys m -> JSMap.get key m = Some e ->
  is_undefined key = false.
Proof.
  intros Hdef Hm. unfold JSMap.defined_keys in Hdef.
  rewrite Forall_forall in Hdef. apply Hdef.
  eapply stored_key_is_listed, Hm.
Qed.

Lemma step_maxSize now call c :
  Cache.maxSize (CacheRun.step now call c) = Cache.maxSize c.
Proof.
  destruct call as [key v | key | key | key |]; simpl; try reflexivity.
  - unfold Cache.get. destruct (JSMap.get key (Cache.cache c)) as [e |];
      [| reflexivity].
    now destruct (Cache.expired now e).
  - unfold Cache.has. destruct (JSMap.get key (Cache.cache c)) as [e |];
      [| reflexivity].
    now destruct (Cache.expired now e).
Qed.

(** No call but [set] adds an entry, and [set] keeps the bound. *)
Lemma step_keeps_capacity now call c :
  0 < Cache.maxSize c ->
  CacheRun.defined_call call ->
  JSMap.defined_keys (Cache.cache c) ->
  Cache.size c <= Cache.maxSize c ->
  JSMap.defined_keys (Cache.cache (CacheRun.step now call c))
  /\ Cache.size (CacheRun.step now call c) <= Cache.maxSize c.
Proof.
  intros Hpos Hcall Hdef Hle.
  pose proof (fun key => defined_keys_remove key _ Hdef) as Hdef_rm.
  pose proof (fun key => length_remove_le key (Cache.cache c)) as Hlen_rm.
  destruct call as [key v | key | key | key |]; simpl.
  - now apply set_keeps_capacity.
  - unfold Cache.get.
    destruct (JSMap.get key (Cache.cache c)) as [e |] eqn:Hm;
      [| now split].
    destruct (Cache.expired now e); simpl.
    + split; [apply Hdef_rm |].
      unfold Cache.size, JSMap.size in *. simpl. specialize (Hlen_rm key).
      lia.
    + rewrite set_remove. split.
      * apply defined_keys_snoc; [| apply Hdef_rm].
        eapply stored_key_is_defined; eauto.
      * pose proof (length_remove_lt _ _ _ Hm).
        unfold Cache.size, JSMap.size in *. simpl. rewrite length_app.
        simpl. lia.
  - unfold Cache.has.
    destruct (JSMap.get key (Cache.cache c)) as [e |] eqn:Hm;
      [| now split].
    destruct (Cache.expired now e); simpl; [| now split].
    split; [apply Hdef_rm |].
    unfold Cache.size, JSMap.size in *. simpl. specialize (Hlen_rm key).
    lia.
  - split; [apply Hdef_rm |].
    unfold Cache.size, JSMap.size in *. simpl. specialize (Hlen_rm key).
    lia.
  - split; [apply Forall_nil_2 |].
    unfold Cache.size, JSMap.size. simpl. lia.
Qed.

End CapacityOfRuns.

(** X1: on a cache with a positive capacity, within it, and with no key
    [undefined], after every call of any run of [set] (of keys other than
    [undefined]), [get], [has], [delete] and [clear] calls, at any clock
    readings, [size] is at most [maxSize]. *)
Theorem capacity_invariant_any_calls
    {K V : Type} `{JSKey K}
    (calls : list (Z * CacheRun.Call K V)) (c : Cache.LRUCache K V) (n : nat) :
  0 < Cache.maxSize c ->
  Cache.size c <= Cache.maxSize c ->
  JSMap.defined_keys (Cache.cache c) ->
  Forall (fun call => CacheRun.defined_call call.2) calls ->
  Cache.size (CacheRun.run (take n calls) c) <= Cache.maxSize c.
Proof.
  revert c n.
  induction calls as [| [now call] calls IH]; intros c n Hpos Hle Hdef Hcalls.
  - now rewrite take_nil.
  - destruct n as [| n]; [exact Hle |].
    apply Forall_cons in Hcalls as [Hcall Hcalls]. simpl in Hcall.
    destruct (step_keeps_capacity now call c Hpos Hcall Hdef Hle)
      as [Hdef' Hle'].
    pose proof (step_maxSize now call c) as Hmax.
    simpl. unfold CacheRun.run in IH |- *. simpl.
    rewrite <- Hmax. apply IH; auto; rewrite Hmax; auto.
Qed.

Lemma capacity_invariant_any_calls_witness :
  let c : Cache.LRUCache string Z :=
    Cache.new (Cache.mkOptions (Some 2) (Some (Finite 10))) in
  let calls : list (Z * CacheRun.Call string Z) :=
    [(0, CacheRun.CallSet "a" 1); (1, CacheRun.CallSet "b" 2);
     (2, CacheRun.CallGet "a"); (3, CacheRun.CallSet "c" 3);
     (20, CacheRun.CallHas "a"); (21, CacheRun.CallDelete "c");
     (22, CacheRun.CallSet "d" 4)] in
  Cache.size (CacheRun.run (take 4 calls) c) <= 2.
Proof.
  intros c calls.
  apply (capacity_invariant_any_calls calls c 4).
  - simpl. lia.
  - vm_compute. discriminate.
  - apply Forall_nil_2.
  - repeat constructor.
Defined.

(** ** What [set] does to the recency order *)

Section SetOrder.
Context {K V : Type} `{JSKey K}.
Implicit Types (c : Cache.LRUCache K V) (key : K) (v : V) (now : Z).
Implicit Types (m : JSMap.t K (Cache.CacheEntry V)).

(** At capacity, with an oldest key that is not [undefined], the eviction
    step drops exactly the oldest entry. *)
Lemma evict_full c k0 e0 m :
  Cache.maxSize c <= Z.of_nat (JSMap.size ((k0, e0) :: m)) ->
  is_undefined k0 = false ->
  JSMap.wf ((k0, e0) :: m) ->
  Cache.evict c ((k0, e0) :: m) = m.
Proof.
  intros Hfull Hk0 Hwf. unfold Cache.evict.
  rewrite bool_decide_true by exact Hfull. simpl. rewrite Hk0.
  rewrite decide_True by reflexivity.
  apply remove_absent, get_keys.
  unfold JSMap.wf in Hwf. simpl in Hwf.
  now apply NoDup_cons in Hwf as [Hk _].
Qed.

Lemma set_all_snoc (calls : list (Z * K * V)) now key v c :
  Cache.set_all (calls ++ [(now, key, v)]) c
  = Cache.set now key v (Cache.set_all calls c).
Proof. unfold Cache.set_all. now rewrite foldl_app. Qed.

Lemma set_all_fields (calls : list (Z * K * V)) c :
  Cache.maxSize (Cache.set_all calls c) = Cache.maxSize c
  /\ Cache.ttl (Cache.set_all calls c) = Cache.ttl c.
Proof.
  induction calls as [| [[now key] v] calls IH] using rev_ind;
    [now split |].
  rewrite set_all_snoc, set_maxSize, set_ttl. exact IH.
Qed.

Lemma keys_stored (d : number) (calls : list (Z * K * V)) :
  JSMap.keys (map (CacheRun.stored d) calls)
  = map (fun call => call.1.2) calls.
Proof.
  unfold JSMap.keys. rewrite map_map. reflexivity.
Qed.

End SetOrder.

(** X2: on a cache within a positive capacity whose keys are not
    [undefined], [set] makes its key the newest entry and keeps the
    others in order, all of them when they fit and all but the oldest one
    otherwise: the map left is the last [maxSize] entries of the old map
    without the key, followed by the new entry. *)
Theorem set_makes_newest_and_drops_oldest
    {K V : Type} `{JSKey K} (now : Z) (key : K) (v : V)
    (c : Cache.LRUCache K V) :
  0 < Cache.maxSize c ->
  Cache.size c <= Cache.maxSize c ->
  JSMap.wf (Cache.cache c) ->
  JSMap.defined_keys (Cache.cache c) ->
  let touched :=
    JSMap.remove key (Cache.cache c)
    ++ [(key, Cache.mkEntry v (Num.add (Finite now) (Cache.ttl c)))] in
  Cache.cache (Cache.set now key v c)
  = drop (length touched - Z.to_nat (Cache.maxSize c)) touched.
Proof.
  intros Hpos Hle Hwf Hdef touched. subst touched.
  rewrite set_cache_eq, length_app. simpl.
  pose proof (length_remove_le key (Cache.cache c)) as Hlen.
  pose proof (wf_remove key _ Hwf) as Hwf1.
  pose proof (defined_keys_remove key _ Hdef) as Hdef1.
  unfold Cache.size, JSMap.size in Hle.
  set (m1 := JSMap.remove key (Cache.cache c)) in *.
  destruct (decide (Z.of_nat (length m1) < Cache.maxSize c))
    as [Hroom | Hfull].
  - rewrite evict_below by exact Hroom.
    replace (length m1 + 1 - Z.to_nat (Cache.maxSize c))%nat
      with 0%nat by lia.
    reflexivity.
  - replace (length m1 + 1 - Z.to_nat (Cache.maxSize c))%nat
      with 1%nat by lia.
    destruct m1 as [| [k0 e0] m]; [simpl in Hfull; lia |].
    apply Forall_cons in Hdef1 as [Hk0 _]. simpl in Hk0.
    rewrite evict_full by (auto; unfold JSMap.size; lia).
    reflexivity.
Qed.

Lemma set_makes_newest_and_drops_oldest_witness :
  let c : Cache.LRUCache string Z :=
    Cache.set 2 "b" 20
      (Cache.set 1 "a" 10
         (Cache.new (Cache.mkOptions (Some 2) (Some (Finite 100))))) in
  JSMap.keys (Cache.cache (Cache.set 3 "c" 30 c)) = ["b"; "c"]
  /\ JSMap.keys (Cache.cache (Cache.set 3 "a" 11 c)) = ["b"; "a"].
Proof.
  intros c.
  assert (Hpos : 0 < Cache.maxSize c) by (simpl; lia).
  assert (Hle : Cache.size c <= Cache.maxSize c)
    by (vm_compute; discriminate).
  assert (Hwf : JSMap.wf (Cache.cache c))
    by (apply (bool_decide_unpack _); vm_compute; exact I).
  assert (Hdef : JSMap.defined_keys (Cache.cache c))
    by (repeat constructor).
  split.
  - rewrite (set_makes_newest_and_drops_oldest 3 "c" 30 c Hpos Hle Hwf Hdef).
    reflexivity.
  - rewrite (set_makes_newest_and_drops_oldest 3 "a" 11 c Hpos Hle Hwf Hdef).
    reflexivity.
Defined.

(** X3: a run of [set] calls with pairwise distinct keys, none
    [undefined], on an empty cache with a positive capacity leaves
    exactly the entries of the last [maxSize] calls, in call order: with
    no reads in between, eviction is first-in first-out. *)
Theorem set_all_keeps_the_newest_entries
    {K V : Type} `{JSKey K} (calls : list (Z * K * V))
    (c : Cache.LRUCache K V) :
  0 < Cache.maxSize c ->
  Cache.cache c = [] ->
  NoDup (map (fun call => call.1.2) calls) ->
  Forall (fun call => is_undefined call.1.2 = false) calls ->
  Cache.cache (Cache.set_all calls c)
  = drop (length calls - Z.to_nat (Cache.maxSize c))
      (map (CacheRun.stored (Cache.ttl c)) calls).
Proof.
  intros Hpos Hempty.
  induction calls as [| [[now key] v] calls IH] using rev_ind;
    intros Hnd Hdef.
  - simpl. exact Hempty.
  - rewrite map_app in Hnd. simpl in Hnd.
    apply NoDup_app in Hnd as (Hnd & Hfresh & _).
    apply Forall_app in Hdef as [Hdef _].
    specialize (IH Hnd Hdef).
    destruct (set_all_fields calls c) as [Hmax Httl].
    rewrite set_all_snoc, set_cache_eq, Httl.
    set (old := map (CacheRun.stored (Cache.ttl c)) calls) in *.
    set (n := (length calls - Z.to_nat (Cache.maxSize c))%nat) in *.
    assert (Hlen_old : length old = length calls)
      by (subst old; apply length_map).
    (* the key of the new call is not among the stored ones *)
    assert (Hkey : JSMap.get key (drop n old) = None).
    { apply get_keys. intros Hin.
      apply (Hfresh key); [| apply list_elem_of_singleton; reflexivity].
      rewrite <- (keys_stored (Cache.ttl c)). fold old.
      unfold JSMap.keys in *. rewrite <- (take_drop n old), map_app.
      apply elem_of_app. now right. }
    rewrite IH, (remove_absent _ _ Hkey).
    rewrite map_app, length_app. simpl map. simpl length. fold old.
    change (CacheRun.stored (Cache.ttl c) (now, key, v))
      with (key, Cache.mkEntry v (Num.add (Finite now) (Cache.ttl c))).
    destruct (decide (length calls < Z.to_nat (Cache.maxSize c))%nat)
      as [Hroom | Hfull].
    + replace n with 0%nat in * by lia.
      replace (length calls + 1 - Z.to_nat (Cache.maxSize c))%nat
        with 0%nat by lia.
      rewrite !drop_0. rewrite evict_below; [reflexivity |].
      unfold JSMap.size. rewrite Hmax, Hlen_old. lia.
    + assert (Hlen_n : length (drop n old) = Z.to_nat (Cache.maxSize c))
        by (rewrite length_drop, Hlen_old; lia).
      replace (length calls + 1 - Z.to_nat (Cache.maxSize c))%nat
        with (S n) by lia.
      rewrite drop_app_le by lia.
      destruct (drop n old) as [| [k0 e0] rest] eqn:Hdrop;
        [simpl in Hlen_n; lia |].
      assert (Hrest : drop (S n) old = rest).
      { replace (S n) with (n + 1)%nat by lia.
        rewrite <- drop_drop, Hdrop. reflexivity. }
      rewrite Hrest. f_equal.
      assert (Hkeys : JSMap.keys ((k0, e0) :: rest)
                      = drop n (map (fun call => call.1.2) calls)).
      { rewrite <- Hdrop, <- (keys_stored (Cache.ttl c)). fold old.
        unfold JSMap.keys. symmetry. apply skipn_map. }
      apply evict_full.
      * rewrite Hmax. unfold JSMap.size. lia.
      * assert (Hin : k0 ∈ map (fun call : Z * K * V => call.1.2) calls).
        { apply (elem_of_sublist (JSMap.keys ((k0, e0) :: rest)));
            [apply list_elem_of_here |].
          rewrite Hkeys. apply sublist_drop. }
        apply list_elem_of_In, in_map_iff in Hin as (call & <- & Hcall).
        rewrite Forall_forall in Hdef. apply Hdef.
        now apply list_elem_of_In.
      * unfold JSMap.wf. rewrite Hkeys.
        apply (sublist_NoDup _ _ Hnd (sublist_drop _ n)).
Qed.

Lemma set_all_keeps_the_newest_entries_witness :
  let c : Cache.LRUCache Z Z := Cache.new (Cache.mkOptions (Some 2) None) in
  JSMap.keys
    (Cache.cache (Cache.set_all [(0, 10, 1); (0, 20, 2); (0, 30, 3)] c))
  = [20; 30].
Proof.
  intros c.
  assert (Hnd : NoDup (map (fun call : Z * Z * Z => call.1.2)
                         [(0, 10, 1); (0, 20, 2); (0, 30, 3)]))
    by (apply (bool_decide_unpack _); vm_compute; exact I).
  rewrite (set_all_keeps_the_newest_entries
             [(0, 10, 1); (0, 20, 2); (0, 30, 3)] c
             ltac:(simpl; lia) eq_refl Hnd ltac:(repeat constructor)).
  reflexivity.
Defined.

(** ** Reads *)

(** X4: a [get] that hits a live entry returns its value and moves the
    entry, unchanged, to the newest position; the other entries keep
    their order, every key keeps its entry, and [size] stays. *)
Theorem get_hit_promotes
    {K V : Type} `{JSKey K} (now : Z) (key : K)
    (e : Cache.CacheEntry V) (c : Cache.LRUCache K V) :
  JSMap.wf (Cache.cache c) ->
  JSMap.get key (Cache.cache c) = Some e ->
  Cache.expired now e = false ->
  let r := Cache.get now key c in
  r.1 = Some (Cache.value e)
  /\ Cache.cache r.2 = JSMap.remove key (Cache.cache c) ++ [(key, e)]
  /\ Cache.size r.2 = Cache.size c
  /\ (forall k, JSMap.get k (Cache.cache r.2) = JSMap.get k (Cache.cache c))
  /\ JSMap.wf (Cache.cache r.2).
Proof.
  intros Hwf Hm Hlive r. subst r.
  rewrite (get_live _ _ _ _ Hm Hlive). cbn [fst snd].
  unfold Cache.with_cache, Cache.size, JSMap.size. cbn [Cache.cache].
  split; [reflexivity |]. split; [reflexivity |]. split; [| split].
  - rewrite length_app. simpl.
    pose proof (length_remove_wf _ _ _ Hwf Hm). lia.
  - intros k. rewrite get_snoc.
    destruct (decide (key = k)) as [<- | Hne].
    + now rewrite get_remove_eq.
    + rewrite get_remove_ne by exact Hne.
      now destruct (JSMap.get k (Cache.cache c)).
  - rewrite <- set_remove.
    apply wf_set_absent; [apply get_remove_eq | now apply wf_remove].
Qed.

Lemma get_hit_promotes_witness :
  let c : Cache.LRUCache string Z :=
    Scenario.abc "a" "b" "c" 1 2 3 0 0 0 in
  JSMap.keys (Cache.cache (Cache.get 5 "b" c).2) = ["a"; "c"; "b"]
  /\ Cache.size (Cache.get 5 "b" c).2 = 3.
Proof.
  intros c.
  assert (Hwf : JSMap.wf (Cache.cache c))
    by (apply (bool_decide_unpack _); vm_compute; exact I).
  assert (Hm : JSMap.get "b" (Cache.cache c) = Some (Scenario.ent 2))
    by (vm_compute; reflexivity).
  destruct (get_hit_promotes 5 "b" (Scenario.ent 2) c Hwf Hm eq_refl)
    as (_ & Hcache & Hsize & _).
  split; [rewrite Hcache; reflexivity | rewrite Hsize; reflexivity].
Defined.

(** X5: at one clock reading [has] and [get] agree on every key: [has]
    is true exactly when [get] returns a stored value, and when they
    report absent they leave the same cache behind (the probed entry
    swept if it was expired, nothing changed otherwise). *)
Theorem has_agrees_with_get
    {K V : Type} `{JSKey K} (now : Z) (key : K) (c : Cache.LRUCache K V) :
  ((Cache.has now key c).1 = true
   <-> exists v, (Cache.get now key c).1 = Some v)
  /\ ((Cache.has now key c).1 = false ->
      Cache.get now key c = (None, (Cache.has now key c).2))
  /\ ((Cache.has now key c).1 = true -> (Cache.has now key c).2 = c).
Proof.
  unfold Cache.has, Cache.get.
  destruct (JSMap.get key (Cache.cache c)) as [e |]; simpl.
  - destruct (Cache.expired now e); simpl.
    + split; [split; [discriminate | intros [v Hv]; discriminate] |].
      split; [reflexivity | discriminate].
    + split; [split; [eauto | reflexivity] |].
      split; [discriminate | reflexivity].
  - split; [split; [discriminate | intros [v Hv]; discriminate] |].
    split; [reflexivity | discriminate].
Qed.

(** ** [clear] *)

(** X6: [clear] empties the cache and keeps its configuration: [size]
    is 0, every [get], [has] and [delete] reports absent and changes
    nothing, a second [clear] or a [clear] of an empty cache is a no-op,
    and the next [set] stores its entry as the only one. *)
Theorem clear_empties_the_cache
    {K V : Type} `{JSKey K} (now : Z) (key : K) (v : V)
    (c : Cache.LRUCache K V) :
  Cache.size (Cache.clear c) = 0
  /\ Cache.maxSize (Cache.clear c) = Cache.maxSize c
  /\ Cache.ttl (Cache.clear c) = Cache.ttl c
  /\ Cache.get now key (Cache.clear c) = (None, Cache.clear c)
  /\ Cache.has now key (Cache.clear c) = (false, Cache.clear c)
  /\ Cache.delete key (Cache.clear c) = (false, Cache.clear c)
  /\ Cache.clear (Cache.clear c) = Cache.clear c
  /\ (Cache.cache c = [] -> Cache.clear c = c)
  /\ Cache.cache (Cache.set now key v (Cache.clear c))
     = [(key, Cache.mkEntry v (Num.add (Finite now) (Cache.ttl c)))].
Proof.
  repeat split.
  - intros Hempty. destruct c as [m M d]. simpl in Hempty. now subst m.
  - rewrite set_cache_eq. simpl. unfold Cache.evict. simpl.
    now destruct (bool_decide _).
Qed.

(** ** Expiry at the ends of the [ttl] range *)

(** X7: with a negative [ttl] an entry is expired the moment it is
    stored: [get] and [has] at the clock reading of the [set], or at any
    later one, report absent, while the entry is in the map and counted
    by [size] until that first lookup sweeps it. *)
Theorem negative_ttl_entry_is_stored_expired
    {K V : Type} `{JSKey K} (T now t : Z) (key : K) (v : V)
    (c : Cache.LRUCache K V) :
  Cache.ttl c = Finite t ->
  t < 0 ->
  T <= now ->
  let c1 := Cache.set T key v c in
  JSMap.has key (Cache.cache c1) = true
  /\ 1 <= Cache.size c1
  /\ (Cache.get now key c1).1 = None
  /\ (Cache.has now key c1).1 = false
  /\ Cache.size (Cache.get now key c1).2 = Cache.size c1 - 1
  /\ JSMap.has key (Cache.cache (Cache.get now key c1).2) = false.
Proof.
  intros Httl Hneg Hnow c1. subst c1.
  pose proof (get_after_set T key v c) as Hget. rewrite Httl in Hget.
  assert (Hexp : Cache.expired now
                   (Cache.mkEntry v (Num.add (Finite T) (Finite t))) = true)
    by (rewrite expired_after_ttl; apply bool_decide_eq_true; lia).
  rewrite (get_expired _ _ _ _ Hget Hexp), (has_expired _ _ _ _ Hget Hexp).
  cbn [fst snd].
  split; [apply has_true; eauto |]. split.
  { unfold Cache.size, JSMap.size. rewrite set_cache_eq, length_app.
    simpl. lia. }
  split; [reflexivity |]. split; [reflexivity |].
  split; [apply size_swept_after_set |].
  apply has_false. unfold Cache.with_cache. cbn [Cache.cache].
  apply get_remove_eq.
Qed.

Lemma negative_ttl_entry_is_stored_expired_witness :
  let c : Cache.LRUCache string Z :=
    Cache.new (Cache.mkOptions (Some 10) (Some (Finite (-1)))) in
  Cache.size (Cache.set 7 "k" 42 c) = 1
  /\ (Cache.get 7 "k" (Cache.set 7 "k" 42 c)).1 = None.
Proof.
  intros c.
  destruct (negative_ttl_entry_is_stored_expired 7 7 (-1) "k" 42 c eq_refl
              ltac:(lia) ltac:(lia)) as (_ & _ & Hget & _).
  split; [reflexivity | exact Hget].
Defined.

(** X8: with the default [ttl] of [Infinity] an entry never expires: on
    any cache that still holds what [set(k, v)] stored, [get(k)] returns
    [v] and [has(k)] is true at every clock reading. *)
Theorem unbounded_ttl_never_expires
    {K V : Type} `{JSKey K} (T : Z) (key : K) (v : V)
    (c : Cache.LRUCache K V) :
  Cache.ttl c = Infinity ->
  JSMap.get key (Cache.cache (Cache.set T key v c))
  = Some (Cache.mkEntry v Infinity)
  /\ (forall (now : Z) (c' : Cache.LRUCache K V),
        JSMap.get key (Cache.cache c') = Some (Cache.mkEntry v Infinity) ->
        (Cache.get now key c').1 = Some v
        /\ Cache.has now key c' = (true, c')).
Proof.
  intros Httl.
  pose proof (get_after_set T key v c) as Hget. rewrite Httl in Hget.
  split; [exact Hget |].
  intros now c' Hc'.
  rewrite (get_live _ _ _ _ Hc' eq_refl), (has_live _ _ _ _ Hc' eq_refl).
  split; reflexivity.
Qed.

Lemma unbounded_ttl_never_expires_witness :
  let c : Cache.LRUCache string Z := Cache.new (Cache.mkOptions None None) in
  (Cache.get 253402300800000 "k" (Cache.set 0 "k" 42 c)).1 = Some 42.
Proof.
  intros c.
  destruct (unbounded_ttl_never_expires 0 "k" 42 c eq_refl)
    as [Hstored Hlive].
  exact (proj1 (Hlive 253402300800000 _ Hstored)).
Defined.

(** ** Capacities of one and below *)

(** X9: a cache with [maxSize] at most 1 (zero and negative values
    included) is a one-slot cache: holding at most one entry, under a key
    other than [undefined], it holds after any [set] exactly the entry
    just written. *)
Theorem maxSize_at_most_one_keeps_only_the_last_entry
    {K V : Type} `{JSKey K} (now : Z) (key : K) (v : V)
    (c : Cache.LRUCache K V) :
  Cache.maxSize c <= 1 ->
  Cache.size c <= 1 ->
  JSMap.defined_keys (Cache.cache c) ->
  Cache.cache (Cache.set now key v c)
  = [(key, Cache.mkEntry v (Num.add (Finite now) (Cache.ttl c)))].
Proof.
  intros Hmax Hsize Hdef. rewrite set_cache_eq.
  unfold Cache.size, JSMap.size in Hsize.
  assert (Hevict : Cache.evict c (JSMap.remove key (Cache.cache c)) = []).
  { destruct (Cache.cache c) as [| [k0 e0] [| ? ?]]; [| | simpl in Hsize; lia].
    - simpl. unfold Cache.evict. simpl. now destruct (bool_decide _).
    - apply Forall_cons in Hdef as [Hk0 _]. simpl in Hk0.
      simpl. destruct (decide (k0 = key)).
      + unfold Cache.evict. simpl. now destruct (bool_decide _).
      + unfold Cache.evict. rewrite bool_decide_true
          by (unfold JSMap.size; simpl; lia).
        simpl. rewrite Hk0. now rewrite decide_True. }
  now rewrite Hevict.
Qed.

Lemma maxSize_at_most_one_keeps_only_the_last_entry_witness :
  let c : Cache.LRUCache string Z :=
    Cache.set 0 "a" 1 (Cache.new (Cache.mkOptions (Some 0) None)) in
  JSMap.keys (Cache.cache (Cache.set 1 "b" 2 c)) = ["b"].
Proof.
  intros c.
  rewrite (maxSize_at_most_one_keeps_only_the_last_entry 1 "b" 2 c
             ltac:(simpl; lia) ltac:(vm_compute; discriminate)
             ltac:(repeat constructor)).
  reflexivity.
Defined.

(** * The font loader *)

Section FontLoaderFacts.
Context {Env Data PErr : Type} (P : FontLoader.Platform Env Data PErr).
Implicit Types (w : FontLoader.World Env Data) (family : string).
Implicit Types (options : FontLoader.Options).

(** After a miss a call either throws, the cache as it was, or returns
    the descriptor it has stored at the clock reading of its end. *)
Lemma fetch_and_store_cases family weight style subset w :
  let r := FontLoader.fetch_and_store P family weight style subset w in
  (exists e, r.1 = FontLoader.Throw e
             /\ FontLoader.fontCache r.2 = FontLoader.fontCache w)
  \/ (exists data,
        r.1 = FontLoader.Return (Font.mkFont family data weight style)
        /\ FontLoader.fontCache r.2
           = Cache.set (FontLoader.Date_now P (FontLoader.env r.2))
               (Font.fontCacheKey family (Font.weight_number weight)
                  (Font.style_string style))
               (Font.mkFont family data weight style)
               (FontLoader.fontCache w)).
Proof.
  unfold FontLoader.fetch_and_store, FontLoader.bind, FontLoader.await_fetch,
    FontLoader.await, FontLoader.ret, FontLoader.throw,
    FontLoader.cache_store.
  cbn zeta.
  destruct (FontLoader.fetch P _ (FontLoader.env w)) as [[css | reason] env1];
    cbn [fst snd]; [| left; eauto].
  destruct (FontLoader.ok css); cbn [negb]; [| left; eauto].
  destruct (FontLoader.text css) as [body | reason]; [| left; eauto].
  destruct (FontLoader.truthy (FontLoader.match_src_url P body))
    as [fontUrl |]; [| left; eauto].
  cbn [FontLoader.env FontLoader.fontCache].
  destruct (FontLoader.fetch P _ env1) as [[font | reason] env2];
    cbn [fst snd]; [| left; eauto].
  destruct (FontLoader.ok font); cbn [negb]; [| left; eauto].
  destruct (FontLoader.arrayBuffer font) as [data | reason]; [| left; eauto].
  right. exists data. split; reflexivity.
Qed.

Lemma loadGoogleFont_unfold family options w :
  FontLoader.loadGoogleFont P family options w
  = match (Cache.get (FontLoader.Date_now P (FontLoader.env w))
             (FontLoader.key_of family options) (FontLoader.fontCache w)).1 with
    | Some config =>
        (FontLoader.Return config,
         FontLoader.mkWorld (FontLoader.env w) (FontLoader.after_lookup P family options w))
    | None =>
        FontLoader.fetch_and_store P family
          (default Font.W400 (FontLoader.o_weight options))
          (default Font.Normal (FontLoader.o_style options))
          (FontLoader.o_text options)
          (FontLoader.mkWorld (FontLoader.env w)
             (FontLoader.after_lookup P family options w))
    end.
Proof.
  unfold FontLoader.loadGoogleFont, FontLoader.bind, FontLoader.cache_lookup,
    Font.loadGoogleFont_cached, FontLoader.after_lookup,
    FontLoader.key_of.
  cbn [fst snd].
  now destruct (Cache.get _ _ _).1.
Qed.

Lemma key_of_eq family options :
  FontLoader.key_of family options
  = Font.fontCacheKey family
      (Font.weight_number (default Font.W400 (FontLoader.o_weight options)))
      (Font.style_string (default Font.Normal (FontLoader.o_style options))).
Proof. reflexivity. Qed.

(** A lookup that misses leaves nothing under its key and touches no
    other key. *)
Lemma miss_leaves_key_absent now key
    (c : Cache.LRUCache string (Font.FontConfig Data)) :
  (Cache.get now key c).1 = None ->
  JSMap.get key (Cache.cache (Cache.get now key c).2) = None
  /\ (forall k, k <> key ->
        JSMap.get k (Cache.cache (Cache.get now key c).2)
        = JSMap.get k (Cache.cache c)).
Proof.
  unfold Cache.get.
  destruct (JSMap.get key (Cache.cache c)) as [e |] eqn:Hm; [| now split].
  destruct (Cache.expired now e); [| discriminate].
  intros _. cbn [snd Cache.with_cache Cache.cache JSMap.delete]. split.
  - apply get_remove_eq.
  - intros k Hk. apply get_remove_ne. congruence.
Qed.

End FontLoaderFacts.

(** X10: on a cache hit [loadGoogleFont] returns the stored descriptor
    itself and performs no request: the platform state is the one it
    started in, and the font cache has only moved the entry to its newest
    position. *)
Theorem loadGoogleFont_hit_makes_no_request
    {Env Data PErr : Type} (P : FontLoader.Platform Env Data PErr)
    (family : string) (options : FontLoader.Options)
    (w : FontLoader.World Env Data) (e : Cache.CacheEntry (Font.FontConfig Data)) :
  JSMap.get (FontLoader.key_of family options)
    (Cache.cache (FontLoader.fontCache w)) = Some e ->
  Cache.expired (FontLoader.Date_now P (FontLoader.env w)) e = false ->
  let r := FontLoader.loadGoogleFont P family options w in
  r.1 = FontLoader.Return (Cache.value e)
  /\ FontLoader.env r.2 = FontLoader.env w
  /\ Cache.cache (FontLoader.fontCache r.2)
     = JSMap.remove (FontLoader.key_of family options)
         (Cache.cache (FontLoader.fontCache w))
       ++ [(FontLoader.key_of family options, e)].
Proof.
  intros Hm Hlive r. subst r.
  rewrite loadGoogleFont_unfold. unfold FontLoader.after_lookup.
  rewrite (get_live _ _ _ _ Hm Hlive). cbn [fst snd].
  repeat split.
Qed.

Lemma loadGoogleFont_hit_makes_no_request_witness :
  let w1 := (FontLoader.loadGoogleFont Mock.platform "Inter" Mock.bold
               (Mock.fresh 0)).2 in
  let r := FontLoader.loadGoogleFont Mock.platform "Inter" Mock.bold w1 in
  r.1 = FontLoader.Return
          (Font.mkFont "Inter" Mock.MOCK_FONT_DATA Font.W700 Font.Normal)
  /\ length (Mock.calls (FontLoader.env r.2)) = 2%nat.
Proof.
  intros w1 r.
  assert (Hm : JSMap.get (FontLoader.key_of "Inter" Mock.bold)
                 (Cache.cache (FontLoader.fontCache w1))
               = Some (Cache.mkEntry
                         (Font.mkFont "Inter" Mock.MOCK_FONT_DATA
                            Font.W700 Font.Normal)
                         (Finite 1800002)))
    by (vm_compute; reflexivity).
  destruct (loadGoogleFont_hit_makes_no_request Mock.platform "Inter"
              Mock.bold w1 _ Hm ltac:(vm_compute; reflexivity))
    as (Hret & Henv & _).
  fold r in Hret, Henv. split; [exact Hret |].
  rewrite Henv. vm_compute. reflexivity.
Defined.

Section FontCacheFacts.
Context {Env Data PErr : Type} (P : FontLoader.Platform Env Data PErr).
Implicit Types (w : FontLoader.World Env Data) (family : string).
Implicit Types (options : FontLoader.Options).
Implicit Types (c : Cache.LRUCache string (Font.FontConfig Data)).

Lemma get_fields now key c :
  Cache.maxSize (Cache.get now key c).2 = Cache.maxSize c
  /\ Cache.ttl (Cache.get now key c).2 = Cache.ttl c.
Proof.
  unfold Cache.get. destruct (JSMap.get key (Cache.cache c)) as [e |];
    [| now split].
  now destruct (Cache.expired now e).
Qed.

(** What a call of [loadGoogleFont] does to the font cache: its lookup,
    and on success after a miss one [set] under the same key. *)
Lemma loadGoogleFont_cache_effect family options w :
  let r := FontLoader.loadGoogleFont P family options w in
  FontLoader.fontCache r.2 = FontLoader.after_lookup P family options w
  \/ (exists config,
        FontLoader.fontCache r.2
        = Cache.set (FontLoader.Date_now P (FontLoader.env r.2))
            (FontLoader.key_of family options) config
            (FontLoader.after_lookup P family options w)).
Proof.
  intros r. subst r. rewrite loadGoogleFont_unfold.
  destruct (Cache.get _ _ _).1 as [config |]; [now left |].
  destruct (fetch_and_store_cases P family
              (default Font.W400 (FontLoader.o_weight options))
              (default Font.Normal (FontLoader.o_style options))
              (FontLoader.o_text options)
              (FontLoader.mkWorld (FontLoader.env w)
                 (FontLoader.after_lookup P family options w)))
    as [(e & _ & Hcache) | (data & _ & Hcache)].
  - left. exact Hcache.
  - right. eexists. rewrite Hcache. reflexivity.
Qed.

Lemma string_keys_defined (m : JSMap.t string (Cache.CacheEntry (Font.FontConfig Data))) :
  JSMap.defined_keys m.
Proof. apply Forall_forall. reflexivity. Qed.

End FontCacheFacts.

(** X11: a font that [loadGoogleFont] fetched after a miss is served
    from the cache afterwards: with the font cache as that call left it,
    a call for the same family, weight and style (whatever its [text])
    within the [ttl] of the end of the first call returns the same
    descriptor, name, weight and style as asked for, and performs no
    request. *)
Theorem loaded_font_is_served_from_cache
    {Env Data PErr : Type} (P : FontLoader.Platform Env Data PErr)
    (family : string) (o o2 : FontLoader.Options)
    (w w1 w2 : FontLoader.World Env Data) (config : Font.FontConfig Data)
    (t : Z) :
  Cache.ttl (FontLoader.fontCache w) = Finite t ->
  (Cache.get (FontLoader.Date_now P (FontLoader.env w))
     (FontLoader.key_of family o) (FontLoader.fontCache w)).1 = None ->
  FontLoader.loadGoogleFont P family o w = (FontLoader.Return config, w1) ->
  default Font.W400 (FontLoader.o_weight o2)
  = default Font.W400 (FontLoader.o_weight o) ->
  default Font.Normal (FontLoader.o_style o2)
  = default Font.Normal (FontLoader.o_style o) ->
  FontLoader.fontCache w2 = FontLoader.fontCache w1 ->
  FontLoader.Date_now P (FontLoader.env w2)
  <= FontLoader.Date_now P (FontLoader.env w1) + t ->
  let r := FontLoader.loadGoogleFont P family o2 w2 in
  r.1 = FontLoader.Return config
  /\ FontLoader.env r.2 = FontLoader.env w2
  /\ Font.name Data config = family
  /\ Font.weight Data config = default Font.W400 (FontLoader.o_weight o)
  /\ Font.style Data config = default Font.Normal (FontLoader.o_style o).
Proof.
  intros Httl Hmiss Hfirst Hweight Hstyle Hcache Hsoon r. subst r.
  rewrite loadGoogleFont_unfold, Hmiss in Hfirst.
  destruct (fetch_and_store_cases P family
              (default Font.W400 (FontLoader.o_weight o))
              (default Font.Normal (FontLoader.o_style o))
              (FontLoader.o_text o)
              (FontLoader.mkWorld (FontLoader.env w)
                 (FontLoader.after_lookup P family o w)))
    as [(e & He & _) | (data & Hret & Hstored)];
    rewrite Hfirst in *; cbn [fst snd] in *; [discriminate |].
  injection Hret as ->.
  assert (Hkey2 : FontLoader.key_of family o2 = FontLoader.key_of family o)
    by (rewrite !key_of_eq, Hweight, Hstyle; reflexivity).
  cbn [FontLoader.fontCache] in Hstored. rewrite <- key_of_eq in Hstored.
  pose proof (get_after_set (FontLoader.Date_now P (FontLoader.env w1))
                (FontLoader.key_of family o)
                (Font.mkFont family data
                   (default Font.W400 (FontLoader.o_weight o))
                   (default Font.Normal (FontLoader.o_style o)))
                (FontLoader.after_lookup P family o w)) as Hget.
  rewrite <- Hstored, <- Hcache in Hget.
  unfold FontLoader.after_lookup in Hget.
  rewrite (proj2 (get_fields _ _ _)), Httl in Hget.
  rewrite loadGoogleFont_unfold, Hkey2. unfold FontLoader.after_lookup.
  rewrite Hkey2.
  rewrite (get_live _ _ _ _ Hget)
    by (rewrite expired_after_ttl; apply bool_decide_eq_false; lia).
  repeat split.
Qed.

Lemma loaded_font_is_served_from_cache_witness :
  let first := FontLoader.loadGoogleFont Mock.platform "Inter" Mock.bold
                 (Mock.fresh 0) in
  let later :=
    FontLoader.mkWorld
      (Mock.mkEnv 1800002 [] (Mock.calls (FontLoader.env first.2)))
      (FontLoader.fontCache first.2) in
  let second :=
    FontLoader.loadGoogleFont Mock.platform "Inter"
      (FontLoader.mkOptions (Some Font.W700) (Some Font.Normal) (Some "Hi"))
      later in
  second.1 = first.1 /\ FontLoader.env second.2 = FontLoader.env later.
Proof.
  intros first later second.
  assert (Hfirst : first
                   = (FontLoader.Return
                        (Font.mkFont "Inter" Mock.MOCK_FONT_DATA
                           Font.W700 Font.Normal), first.2))
    by (vm_compute; reflexivity).
  destruct (loaded_font_is_served_from_cache Mock.platform "Inter" Mock.bold
              (FontLoader.mkOptions (Some Font.W700) (Some Font.Normal)
                 (Some "Hi"))
              (Mock.fresh 0) first.2 later _ 1800000
              eq_refl eq_refl Hfirst eq_refl eq_refl eq_refl
              ltac:(vm_compute; discriminate))
    as (Hret & Henv & _).
  fold second in Hret, Henv. split; [| exact Henv].
  rewrite Hret, Hfirst. reflexivity.
Defined.

(** X12: a call of [loadGoogleFont] that throws (a request rejected or
    not ok, no font URL in the CSS, a body that cannot be read) stores
    nothing: the font cache is as its lookup left it, with no entry under
    the call's key and every other key as before. *)
Theorem loadGoogleFont_failure_stores_nothing
    {Env Data PErr : Type} (P : FontLoader.Platform Env Data PErr)
    (family : string) (options : FontLoader.Options)
    (w w1 : FontLoader.World Env Data) (e : FontLoader.Thrown PErr) :
  FontLoader.loadGoogleFont P family options w = (FontLoader.Throw e, w1) ->
  FontLoader.fontCache w1 = FontLoader.after_lookup P family options w
  /\ JSMap.get (FontLoader.key_of family options)
       (Cache.cache (FontLoader.fontCache w1)) = None
  /\ (forall k, k <> FontLoader.key_of family options ->
        JSMap.get k (Cache.cache (FontLoader.fontCache w1))
        = JSMap.get k (Cache.cache (FontLoader.fontCache w))).
Proof.
  intros Hcall. rewrite loadGoogleFont_unfold in Hcall.
  destruct (Cache.get _ _ _).1 as [config |] eqn:Hlookup;
    [discriminate |].
  destruct (fetch_and_store_cases P family
              (default Font.W400 (FontLoader.o_weight options))
              (default Font.Normal (FontLoader.o_style options))
              (FontLoader.o_text options)
              (FontLoader.mkWorld (FontLoader.env w)
                 (FontLoader.after_lookup P family options w)))
    as [(e' & _ & Hcache) | (data & Hret & _)];
    rewrite Hcall in *; cbn [fst snd] in *; [| discriminate].
  cbn [FontLoader.fontCache] in Hcache.
  split; [exact Hcache |]. rewrite Hcache. unfold FontLoader.after_lookup.
  now apply miss_leaves_key_absent.
Qed.

Lemma loadGoogleFont_failure_stores_nothing_witness :
  let w : FontLoader.World Mock.Env string :=
    FontLoader.start
      (Mock.mkEnv 0
         [FontLoader.mkResponse false 404 "Not Found"
            (FontLoader.Fulfilled "Not Found")
            (FontLoader.Fulfilled "Not Found")] []) in
  let r := FontLoader.loadGoogleFont Mock.platform "NonExistent"
             (FontLoader.mkOptions None None None) w in
  Cache.size (FontLoader.fontCache r.2) = 0.
Proof.
  intros w r.
  assert (Hcall : r = (FontLoader.Throw
                         (FontLoader.css_failed "NonExistent"
                            (FontLoader.mkResponse false 404 "Not Found"
                               (FontLoader.Fulfilled "Not Found")
                               (FontLoader.Fulfilled "Not Found"))), r.2))
    by (vm_compute; reflexivity).
  destruct (loadGoogleFont_failure_stores_nothing Mock.platform
              "NonExistent" (FontLoader.mkOptions None None None) w r.2 _
              Hcall) as (Hcache & _).
  rewrite Hcache. reflexivity.
Defined.

(** X13: the font style is never sent to Google Fonts.  Two calls of
    [loadGoogleFont] that differ only in [style], from the same platform
    state and both missing the cache, make the same requests: they leave
    the same platform state, both throw or both return, and the returned
    descriptors carry the same data, each labelled with the style its
    call asked for. *)
Theorem style_is_never_requested
    {Env Data PErr : Type} (P : FontLoader.Platform Env Data PErr)
    (family : string) (o1 o2 : FontLoader.Options)
    (w1 w2 : FontLoader.World Env Data) :
  FontLoader.o_weight o1 = FontLoader.o_weight o2 ->
  FontLoader.o_text o1 = FontLoader.o_text o2 ->
  FontLoader.env w1 = FontLoader.env w2 ->
  (Cache.get (FontLoader.Date_now P (FontLoader.env w1))
     (FontLoader.key_of family o1) (FontLoader.fontCache w1)).1 = None ->
  (Cache.get (FontLoader.Date_now P (FontLoader.env w2))
     (FontLoader.key_of family o2) (FontLoader.fontCache w2)).1 = None ->
  let r1 := FontLoader.loadGoogleFont P family o1 w1 in
  let r2 := FontLoader.loadGoogleFont P family o2 w2 in
  FontLoader.env r1.2 = FontLoader.env r2.2
  /\ match r1.1, r2.1 with
     | FontLoader.Return c1, FontLoader.Return c2 =>
         Font.data Data c1 = Font.data Data c2
         /\ Font.name Data c1 = Font.name Data c2
         /\ Font.weight Data c1 = Font.weight Data c2
         /\ Font.style Data c1
            = default Font.Normal (FontLoader.o_style o1)
         /\ Font.style Data c2
            = default Font.Normal (FontLoader.o_style o2)
     | FontLoader.Throw _, FontLoader.Throw _ => True
     | _, _ => False
     end.
Proof.
  intros Hweight Htext Henv Hmiss1 Hmiss2 r1 r2. subst r1 r2.
  rewrite !loadGoogleFont_unfold, Hmiss1, Hmiss2, Hweight, Htext, Henv.
  unfold FontLoader.fetch_and_store, FontLoader.bind, FontLoader.await_fetch,
    FontLoader.await, FontLoader.ret, FontLoader.throw,
    FontLoader.cache_store.
  cbn zeta. cbn [FontLoader.env FontLoader.fontCache].
  destruct (FontLoader.fetch P _ (FontLoader.env w2)) as [[css | reason] env1];
    cbn [fst snd]; [| now split].
  destruct (FontLoader.ok css); cbn [negb]; [| now split].
  destruct (FontLoader.text css) as [body | reason]; [| now split].
  destruct (FontLoader.truthy (FontLoader.match_src_url P body))
    as [fontUrl |]; [| now split].
  cbn [FontLoader.env FontLoader.fontCache].
  destruct (FontLoader.fetch P _ env1) as [[font | reason] env2];
    cbn [fst snd]; [| now split].
  destruct (FontLoader.ok font); cbn [negb]; [| now split].
  destruct (FontLoader.arrayBuffer font) as [data | reason]; [| now split].
  repeat split.
Qed.

Lemma style_is_never_requested_witness :
  let r1 := FontLoader.loadGoogleFont Mock.platform "Inter"
              (FontLoader.mkOptions (Some Font.W700) (Some Font.Italic) None)
              (Mock.fresh 0) in
  let r2 := FontLoader.loadGoogleFont Mock.platform "Inter" Mock.bold
              (Mock.fresh 0) in
  Mock.calls (FontLoader.env r1.2) = Mock.calls (FontLoader.env r2.2).
Proof.
  intros r1 r2.
  destruct (style_is_never_requested Mock.platform "Inter"
              (FontLoader.mkOptions (Some Font.W700) (Some Font.Italic) None)
              Mock.bold (Mock.fresh 0) (Mock.fresh 0)
              eq_refl eq_refl eq_refl eq_refl eq_refl) as [Henv _].
  fold r1 r2 in Henv. now rewrite Henv.
Defined.

(** X14: a font that [resolveFont] has resolved resolves to itself:
    whatever branch produced it (data given, a URL fetched, Google
    Fonts), the result has its data, and resolving it again, in any
    world, returns it as it is with no request and no access to the font
    cache. *)
Theorem resolved_font_resolves_to_itself
    {Env Data PErr : Type} (P : FontLoader.Platform Env Data PErr)
    (font resolved : FontLoader.FontSpec Data)
    (w w1 w2 : FontLoader.World Env Data) :
  FontLoader.resolveFont P font w = (FontLoader.Return resolved, w1) ->
  FontLoader.f_data resolved <> None
  /\ FontLoader.resolveFont P resolved w2 = (FontLoader.Return resolved, w2).
Proof.
  intros Hcall.
  assert (Hdata : FontLoader.f_data resolved <> None).
  { unfold FontLoader.resolveFont in Hcall.
    destruct (FontLoader.f_data font) as [data |] eqn:Hfont.
    - injection Hcall as <- _. now rewrite Hfont.
    - destruct (FontLoader.truthy (FontLoader.f_url font)) as [url |].
      + unfold FontLoader.bind, FontLoader.await_fetch, FontLoader.await,
          FontLoader.ret, FontLoader.throw in Hcall.
        cbn zeta in Hcall.
        destruct (FontLoader.fetch P _ (FontLoader.env w))
          as [[response | reason] env1]; cbn [fst snd] in Hcall;
          [| discriminate].
        destruct (FontLoader.ok response); cbn [negb] in Hcall;
          [| discriminate].
        destruct (FontLoader.arrayBuffer response) as [data | reason];
          [| discriminate].
        injection Hcall as <- _. discriminate.
      + unfold FontLoader.bind in Hcall.
        destruct (FontLoader.loadGoogleFont P _ _ w) as [[config | e] w']
          eqn:Hload; [| discriminate].
        unfold FontLoader.ret in Hcall. injection Hcall as <- _.
        discriminate. }
  split; [exact Hdata |].
  unfold FontLoader.resolveFont.
  destruct (FontLoader.f_data resolved); [reflexivity | contradiction].
Qed.

Lemma resolved_font_resolves_to_itself_witness :
  let font : FontLoader.FontSpec string :=
    FontLoader.mkSpec "Inter" None (Some Font.W700) None None in
  let r := FontLoader.resolveFont Mock.platform font (Mock.fresh 0) in
  exists resolved,
    r.1 = FontLoader.Return resolved
    /\ FontLoader.resolveFont Mock.platform resolved r.2
       = (FontLoader.Return resolved, r.2).
Proof.
  intros font r.
  exists (FontLoader.mkSpec "Inter" (Some Mock.MOCK_FONT_DATA)
            (Some Font.W700) (Some Font.Normal) None).
  assert (Hcall : r = (FontLoader.Return
                         (FontLoader.mkSpec "Inter"
                            (Some Mock.MOCK_FONT_DATA) (Some Font.W700)
                            (Some Font.Normal) None), r.2))
    by (vm_compute; reflexivity).
  split; [now rewrite Hcall |].
  exact (proj2 (resolved_font_resolves_to_itself Mock.platform font _
                  (Mock.fresh 0) r.2 r.2 Hcall)).
Defined.

(** ** The font cache over a program's run *)

Section FontRuns.
Context {Env Data PErr : Type} (P : FontLoader.Platform Env Data PErr).
Implicit Types (w : FontLoader.World Env Data) (family : string).
Implicit Types (c : Cache.LRUCache string (Font.FontConfig Data)).

(** [resolveFont] touches the font cache only through [loadGoogleFont]. *)
Lemma resolveFont_cache_effect (font : FontLoader.FontSpec Data) w :
  FontLoader.fontCache (FontLoader.resolveFont P font w).2
  = FontLoader.fontCache w
  \/ FontLoader.fontCache (FontLoader.resolveFont P font w).2
     = FontLoader.fontCache
         (FontLoader.loadGoogleFont P (FontLoader.f_name font)
            (FontLoader.mkOptions (FontLoader.f_weight font)
               (FontLoader.f_style font) None) w).2.
Proof.
  unfold FontLoader.resolveFont.
  destruct (FontLoader.f_data font); [now left |].
  destruct (FontLoader.truthy (FontLoader.f_url font)) as [url |].
  - left.
    unfold FontLoader.bind, FontLoader.await_fetch, FontLoader.await,
      FontLoader.ret, FontLoader.throw.
    cbn zeta.
    destruct (FontLoader.fetch P _ (FontLoader.env w))
      as [[response | reason] env1]; cbn [fst snd]; [| reflexivity].
    destruct (FontLoader.ok response); cbn [negb]; [| reflexivity].
    now destruct (FontLoader.arrayBuffer response).
  - right. unfold FontLoader.bind.
    now destruct (FontLoader.loadGoogleFont P _ _ w) as [[config | e] w'].
Qed.

Lemma get_within_30 now key c :
  FontLoader.within_30 c -> FontLoader.within_30 (Cache.get now key c).2.
Proof.
  intros [Hmax Hsize]. split; [now rewrite (proj1 (get_fields _ _ _)) |].
  pose proof (step_keeps_capacity now (CacheRun.CallGet key) c) as Hstep.
  simpl in Hstep. rewrite Hmax in Hstep.
  apply Hstep; auto using string_keys_defined. lia.
Qed.

Lemma set_within_30 now key (config : Font.FontConfig Data) c :
  FontLoader.within_30 c -> FontLoader.within_30 (Cache.set now key config c).
Proof.
  intros [Hmax Hsize]. split; [exact Hmax |].
  pose proof (step_keeps_capacity now (CacheRun.CallSet key config) c)
    as Hstep.
  simpl in Hstep. rewrite Hmax in Hstep.
  apply Hstep; auto using string_keys_defined. lia.
Qed.

Lemma loadGoogleFont_within_30 family options w :
  FontLoader.within_30 (FontLoader.fontCache w) ->
  FontLoader.within_30
    (FontLoader.fontCache (FontLoader.loadGoogleFont P family options w).2).
Proof.
  intros Hw.
  destruct (loadGoogleFont_cache_effect P family options w)
    as [-> | [config ->]]; unfold FontLoader.after_lookup.
  - now apply get_within_30.
  - now apply set_within_30, get_within_30.
Qed.

Lemma font_step_within_30 (call : FontLoader.FontCall Env Data) w :
  FontLoader.within_30 (FontLoader.fontCache w) ->
  FontLoader.within_30 (FontLoader.fontCache (FontLoader.font_step P call w)).
Proof.
  intros Hw. destruct call as [family options | font | | env']; simpl.
  - now apply loadGoogleFont_within_30.
  - destruct (resolveFont_cache_effect font w) as [-> | ->];
      [exact Hw | now apply loadGoogleFont_within_30].
  - destruct Hw as [Hmax _]. split; [exact Hmax |].
    unfold Cache.size, JSMap.size. simpl. lia.
  - exact Hw.
Qed.

End FontRuns.

(** X15: whatever the network answers and however the clock moves, after
    any sequence of [loadGoogleFont], [resolveFont] and [clearFontCache]
    calls on the module as loaded, the font cache holds at most 30
    descriptors. *)
Theorem font_cache_holds_at_most_30
    {Env Data PErr : Type} (P : FontLoader.Platform Env Data PErr)
    (calls : list (FontLoader.FontCall Env Data)) (e : Env) :
  Cache.size
    (FontLoader.fontCache (FontLoader.font_run P calls (FontLoader.start e)))
  <= 30.
Proof.
  assert (Hrun : forall w,
             FontLoader.within_30 (FontLoader.fontCache w) ->
             FontLoader.within_30
               (FontLoader.fontCache (FontLoader.font_run P calls w))).
  { induction calls as [| call calls IH]; intros w Hw; [exact Hw |].
    unfold FontLoader.font_run in *. simpl.
    now apply IH, font_step_within_30. }
  apply Hrun. split; [reflexivity |]. vm_compute. discriminate.
Qed.

(** ** The font cache key *)

Lemma string_length_app (s t : string) :
  String.length (s +:+ t) = (String.length s + String.length t)%nat.
Proof.
  induction s as [| a s IH]; [reflexivity |].
  change (S (String.length (s +:+ t))
          = S (String.length s + String.length t)).
  now rewrite IH.
Qed.

(** Two strings with tails of one length agree part by part. *)
Lemma string_app_inj_tail (s1 s2 t1 t2 : string) :
  String.length t1 = String.length t2 ->
  s1 +:+ t1 = s2 +:+ t2 ->
  s1 = s2 /\ t1 = t2.
Proof.
  intros Hlen. revert s2.
  induction s1 as [| a s1 IH]; intros [| b s2] Heq.
  - now split.
  - change (t1 = String b (s2 +:+ t2)) in Heq. subst t1.
    change (S (String.length (s2 +:+ t2)) = String.length t2) in Hlen.
    rewrite string_length_app in Hlen. lia.
  - change (String a (s1 +:+ t1) = t2) in Heq. subst t2.
    change (String.length t1 = S (String.length (s1 +:+ t1))) in Hlen.
    rewrite string_length_app in Hlen. lia.
  - change (String a (s1 +:+ t1) = String b (s2 +:+ t2)) in Heq.
    injection Heq as -> Heq.
    destruct (IH _ Heq) as [-> ->]. now split.
Qed.

Lemma fontCacheKey_tail family weight style :
  Font.fontCacheKey family (Font.weight_number weight)
    (Font.style_string style)
  = family +:+ FontLoader.key_tail weight style.
Proof.
  unfold Font.fontCacheKey, Font.template, FontLoader.key_tail. simpl.
  now rewrite append_empty_r.
Qed.

Lemma key_tail_inj w1 s1 w2 s2 :
  FontLoader.key_tail w1 s1 = FontLoader.key_tail w2 s2 -> w1 = w2 /\ s1 = s2.
Proof.
  destruct w1, s1, w2, s2; intros Heq; vm_compute in Heq;
    first [now split | discriminate].
Qed.

Lemma key_tail_length w1 s1 w2 s2 :
  String.length (FontLoader.key_tail w1 s1) = String.length (FontLoader.key_tail w2 s2).
Proof. destruct w1, s1, w2, s2; reflexivity. Qed.

Lemma typed_key_inj family1 w1 s1 family2 w2 s2 :
  Font.fontCacheKey family1 (Font.weight_number w1) (Font.style_string s1)
  = Font.fontCacheKey family2 (Font.weight_number w2) (Font.style_string s2)
  -> family1 = family2 /\ w1 = w2 /\ s1 = s2.
Proof.
  rewrite !fontCacheKey_tail. intros Heq.
  apply string_app_inj_tail in Heq as [-> Htail];
    [| apply key_tail_length].
  split; [reflexivity |]. now apply key_tail_inj.
Qed.

(** X16: the key [loadGoogleFont] builds determines the request: two
    calls with the same key have the same family, the same weight and the
    same style (defaults applied), so different fonts never share a cache
    entry.  For [fontCacheKey] on arbitrary numbers and strings this
    fails: a [:] in the family or the style makes distinct triples
    collide. *)
Theorem font_cache_key_determines_the_request
    (family1 family2 : string) (o1 o2 : Font.LoadGoogleFontOptions) :
  (Font.loadGoogleFont_key family1 o1 = Font.loadGoogleFont_key family2 o2
   <-> family1 = family2
       /\ default Font.W400 (Font.load_weight o1)
          = default Font.W400 (Font.load_weight o2)
       /\ default Font.Normal (Font.load_style o1)
          = default Font.Normal (Font.load_style o2))
  /\ Font.fontCacheKey "a" 1 "2:x" = Font.fontCacheKey "a:1" 2 "x".
Proof.
  split; [| reflexivity]. unfold Font.loadGoogleFont_key. split.
  - apply typed_key_inj.
  - intros (-> & -> & ->). reflexivity.
Qed.

(** ** Descriptors are filed under their own key *)

Section Filed.
Context {K V : Type} `{JSKey K}.
Implicit Types (c : Cache.LRUCache K V) (k key : K) (v : V) (now : Z).
Implicit Types (m : JSMap.t K (Cache.CacheEntry V)).

Lemma get_remove_some k key m e :
  JSMap.get k (JSMap.remove key m) = Some e -> JSMap.get k m = Some e.
Proof.
  destruct (decide (key = k)) as [-> | Hne].
  - now rewrite get_remove_eq.
  - now rewrite get_remove_ne.
Qed.

Lemma get_evict_some c k m e :
  JSMap.get k (Cache.evict c m) = Some e -> JSMap.get k m = Some e.
Proof.
  unfold Cache.evict. destruct (bool_decide _); [| auto].
  destruct (JSMap.first_key m) as [k0 |]; [| auto].
  destruct (is_undefined k0); [auto |]. apply get_remove_some.
Qed.

(** [get] returns only what is stored under its key. *)
Lemma get_returns_stored now key c v :
  (Cache.get now key c).1 = Some v ->
  exists e, JSMap.get key (Cache.cache c) = Some e /\ Cache.value e = v.
Proof.
  unfold Cache.get. destruct (JSMap.get key (Cache.cache c)) as [e |];
    [| discriminate].
  destruct (Cache.expired now e); [discriminate |].
  intros [= <-]. eauto.
Qed.

(** [get] adds no entry and changes none. *)
Lemma entries_after_get now key c k e :
  JSMap.get k (Cache.cache (Cache.get now key c).2) = Some e ->
  JSMap.get k (Cache.cache c) = Some e.
Proof.
  unfold Cache.get.
  destruct (JSMap.get key (Cache.cache c)) as [e0 |] eqn:Hm; [| auto].
  destruct (Cache.expired now e0); cbn [snd Cache.with_cache Cache.cache
                                          JSMap.delete].
  - apply get_remove_some.
  - rewrite set_remove, get_snoc.
    destruct (JSMap.get k (JSMap.remove key (Cache.cache c))) as [e' |]
      eqn:Hrm.
    + intros [= <-]. now apply get_remove_some in Hrm.
    + destruct (decide (key = k)) as [<- |]; [| discriminate].
      now intros [= <-].
Qed.

(** After [set] an entry is the one written or one that was there. *)
Lemma entries_after_set now key v c k e :
  JSMap.get k (Cache.cache (Cache.set now key v c)) = Some e ->
  (k = key /\ Cache.value e = v) \/ JSMap.get k (Cache.cache c) = Some e.
Proof.
  rewrite set_cache_eq, get_snoc.
  destruct (JSMap.get k (Cache.evict c _)) as [e' |] eqn:Hold.
  - intros [= <-]. right. eapply get_remove_some, get_evict_some, Hold.
  - destruct (decide (key = k)) as [<- |]; [| discriminate].
    intros [= <-]. now left.
Qed.

End Filed.

Section FiledFonts.
Context {Env Data PErr : Type} (P : FontLoader.Platform Env Data PErr).
Implicit Types (w : FontLoader.World Env Data) (family : string).
Implicit Types (options : FontLoader.Options).

Lemma loadGoogleFont_filed family options w :
  FontLoader.filed (FontLoader.fontCache w) ->
  FontLoader.filed
    (FontLoader.fontCache (FontLoader.loadGoogleFont P family options w).2).
Proof.
  intros Hw.
  assert (Hlookup : FontLoader.filed
                      (FontLoader.after_lookup P family options w))
    by (intros k e Hk; eapply Hw, entries_after_get, Hk).
  rewrite loadGoogleFont_unfold.
  destruct (Cache.get _ _ _).1 as [config |]; [exact Hlookup |].
  destruct (fetch_and_store_cases P family
              (default Font.W400 (FontLoader.o_weight options))
              (default Font.Normal (FontLoader.o_style options))
              (FontLoader.o_text options)
              (FontLoader.mkWorld (FontLoader.env w)
                 (FontLoader.after_lookup P family options w)))
    as [(e & _ & ->) | (data & _ & ->)]; [exact Hlookup |].
  intros k e Hk. apply entries_after_set in Hk as [[-> ->] | Hk].
  - reflexivity.
  - now apply Hlookup.
Qed.

Lemma font_step_filed (call : FontLoader.FontCall Env Data) w :
  FontLoader.filed (FontLoader.fontCache w) ->
  FontLoader.filed (FontLoader.fontCache (FontLoader.font_step P call w)).
Proof.
  intros Hw. destruct call as [family options | font | | env']; simpl.
  - now apply loadGoogleFont_filed.
  - destruct (resolveFont_cache_effect P font w) as [-> | ->];
      [exact Hw | now apply loadGoogleFont_filed].
  - intros k e Hk. discriminate.
  - exact Hw.
Qed.

Lemma font_run_filed (calls : list (FontLoader.FontCall Env Data)) w :
  FontLoader.filed (FontLoader.fontCache w) ->
  FontLoader.filed (FontLoader.fontCache (FontLoader.font_run P calls w)).
Proof.
  revert w. induction calls as [| call calls IH]; intros w Hw; [exact Hw |].
  unfold FontLoader.font_run in *. simpl.
  now apply IH, font_step_filed.
Qed.

End FiledFonts.

(** X17: [loadGoogleFont] never hands out another font: after any
    sequence of calls on the module as loaded, whatever the network did,
    a descriptor it returns, fetched or from the cache, has the family
    asked for as its name and the weight and style asked for (400 and
    normal by default). *)
Theorem loadGoogleFont_returns_the_requested_font
    {Env Data PErr : Type} (P : FontLoader.Platform Env Data PErr)
    (calls : list (FontLoader.FontCall Env Data)) (e : Env)
    (family : string) (options : FontLoader.Options)
    (config : Font.FontConfig Data) (w1 : FontLoader.World Env Data) :
  FontLoader.loadGoogleFont P family options
    (FontLoader.font_run P calls (FontLoader.start e))
  = (FontLoader.Return config, w1) ->
  Font.name Data config = family
  /\ Font.weight Data config
     = default Font.W400 (FontLoader.o_weight options)
  /\ Font.style Data config
     = default Font.Normal (FontLoader.o_style options).
Proof.
  set (w := FontLoader.font_run P calls (FontLoader.start e)).
  assert (Hfiled : FontLoader.filed (FontLoader.fontCache w)).
  { apply font_run_filed. intros k e0 Hk. discriminate. }
  intros Hcall. rewrite loadGoogleFont_unfold in Hcall.
  destruct (Cache.get _ _ _).1 as [cached |] eqn:Hlookup.
  - injection Hcall as <- _.
    apply get_returns_stored in Hlookup as (e0 & Hstored & <-).
    apply Hfiled in Hstored. rewrite key_of_eq in Hstored.
    unfold FontLoader.own_key in Hstored.
    apply typed_key_inj in Hstored as (-> & -> & ->). repeat split.
  - destruct (fetch_and_store_cases P family
                (default Font.W400 (FontLoader.o_weight options))
                (default Font.Normal (FontLoader.o_style options))
                (FontLoader.o_text options)
                (FontLoader.mkWorld (FontLoader.env w)
                   (FontLoader.after_lookup P family options w)))
      as [(e0 & He0 & _) | (data & Hret & _)];
      rewrite Hcall in *; cbn [fst] in *; [discriminate |].
    injection Hret as ->. repeat split.
Qed.

Lemma loadGoogleFont_returns_the_requested_font_witness :
  let w := FontLoader.font_run Mock.platform
             [FontLoader.LoadGoogleFont "Inter" Mock.bold]
             (FontLoader.start
                (Mock.mkEnv 0
                   [Mock.response_ok Mock.MOCK_CSS;
                    Mock.response_ok Mock.MOCK_FONT_DATA] [])) in
  exists config w1,
    FontLoader.loadGoogleFont Mock.platform "Inter" Mock.bold w
    = (FontLoader.Return config, w1)
    /\ Font.name string config = "Inter"
    /\ Font.weight string config = Font.W700.
Proof.
  intros w.
  exists (Font.mkFont "Inter" Mock.MOCK_FONT_DATA Font.W700 Font.Normal).
  exists (FontLoader.loadGoogleFont Mock.platform "Inter" Mock.bold w).2.
  assert (Hcall : FontLoader.loadGoogleFont Mock.platform "Inter" Mock.bold w
                  = (FontLoader.Return
                       (Font.mkFont "Inter" Mock.MOCK_FONT_DATA
                          Font.W700 Font.Normal),
                     (FontLoader.loadGoogleFont Mock.platform "Inter"
                        Mock.bold w).2))
    by (vm_compute; reflexivity).
  split; [exact Hcall |].
  destruct (loadGoogleFont_returns_the_requested_font Mock.platform
              [FontLoader.LoadGoogleFont "Inter" Mock.bold] _ "Inter"
              Mock.bold _ _ Hcall) as (Hname & Hweight & _).
  split; [exact Hname | exact Hweight].
Defined.

(** * Images *)

Section StringFacts.
Implicit Types (s t p : string) (a sep : ascii).

Lemma cons_app a s t : String a s +:+ t = String a (s +:+ t).
Proof. reflexivity. Qed.

Lemma prefix_split p s :
  String.prefix p s = true -> exists r, s = p +:+ r.
Proof.
  revert s. induction p as [| a p IH]; intros s Hp.
  - exists s. reflexivity.
  - destruct s as [| b s]; [discriminate |]. simpl in Hp.
    destruct (Ascii.ascii_dec a b) as [-> |]; [| discriminate].
    destruct (IH _ Hp) as [r ->]. exists r. reflexivity.
Qed.

Lemma prefix_app p r : String.prefix p (p +:+ r) = true.
Proof.
  induction p as [| a p IH]; [now destruct r |].
  rewrite cons_app. simpl.
  destruct (Ascii.ascii_dec a a); [exact IH | contradiction].
Qed.

Lemma split_not_nil sep s : JSString.split sep s <> [].
Proof.
  destruct s as [| a s]; simpl; [discriminate |].
  destruct (decide (a = sep)); [discriminate |].
  destruct (JSString.split sep s); discriminate.
Qed.

Lemma split_lacks sep s :
  JSString.lacks sep s = true -> JSString.split sep s = [s].
Proof.
  induction s as [| a s IH]; simpl; [reflexivity |].
  destruct (decide (a = sep)); [discriminate |].
  intros Hs. now rewrite IH.
Qed.

(** Splitting around a separator splits both sides. *)
Lemma split_app sep s t :
  JSString.split sep (s +:+ String sep t)
  = JSString.split sep s ++ JSString.split sep t.
Proof.
  induction s as [| a s IH]; simpl.
  - now rewrite decide_True.
  - rewrite IH. destruct (decide (a = sep)); [reflexivity |].
    destruct (JSString.split sep s) as [| piece pieces] eqn:Hsplit;
      [now apply split_not_nil in Hsplit | reflexivity].
Qed.

(** The first part of a split is what comes before the first
    separator. *)
Lemma first_part_before sep s t :
  JSString.lacks sep s = true ->
  JSString.first_part (JSString.split sep (s +:+ String sep t)) = s.
Proof.
  intros Hs. now rewrite split_app, (split_lacks _ _ Hs).
Qed.

(** The last part of a split is what comes after the last separator. *)
Lemma last_part_after sep s t :
  JSString.lacks sep t = true ->
  JSString.last_part (JSString.split sep (s +:+ String sep t)) = t.
Proof.
  intros Ht. rewrite split_app, (split_lacks _ _ Ht).
  unfold JSString.last_part. now rewrite last_snoc.
Qed.

Lemma trimEnd_cons a s :
  JSString.is_white_space a = false ->
  JSString.trimEnd (String a s) = String a (JSString.trimEnd s).
Proof.
  intros Ha. simpl. rewrite Ha. now destruct (JSString.trimEnd s).
Qed.

Lemma trimStart_cons a s :
  JSString.is_white_space a = false ->
  JSString.trimStart (String a s) = String a s.
Proof. intros Ha. simpl. now rewrite Ha. Qed.

(** A string that starts with [image/] has no white space to trim at
    its start. *)
Lemma trim_image rest :
  JSString.trim ("image/" +:+ rest) = JSString.trimEnd ("image/" +:+ rest).
Proof.
  unfold JSString.trim.
  change ("image/" +:+ rest) with (String "i" ("mage/" +:+ rest)).
  now rewrite trimStart_cons by reflexivity.
Qed.

Lemma trimEnd_white s :
  JSString.all_white_space s = true -> JSString.trimEnd s = EmptyString.
Proof.
  induction s as [| a s IH]; simpl; [reflexivity |].
  intros [Ha Hs]%andb_true_iff. now rewrite IH, Ha.
Qed.

(** Trailing white space goes, whatever precedes it. *)
Lemma trimEnd_app_white s t :
  JSString.all_white_space t = true ->
  JSString.trimEnd (s +:+ t) = JSString.trimEnd s.
Proof.
  intros Ht. induction s as [| a s IH].
  - now apply trimEnd_white.
  - rewrite cons_app. simpl. now rewrite IH.
Qed.

Lemma lacks_app a s t :
  JSString.lacks a (s +:+ t) = JSString.lacks a s && JSString.lacks a t.
Proof.
  induction s as [| b s IH]; [reflexivity |].
  rewrite cons_app. simpl. now destruct (decide (b = a)).
Qed.

Lemma white_space_lacks a s :
  JSString.is_white_space a = false ->
  JSString.all_white_space s = true -> JSString.lacks a s = true.
Proof.
  intros Ha. induction s as [| b s IH]; simpl; [reflexivity |].
  intros [Hb Hs]%andb_true_iff.
  destruct (decide (b = a)) as [-> |]; [congruence | auto].
Qed.

End StringFacts.

(** X18: a content type that starts with [image/] decides the MIME
    type, whatever the URL: parameters after the first [;] and white
    space around the type are dropped, so [image/webp; charset=utf-8]
    gives [image/webp]. *)
Theorem content_type_decides_the_mime_type
    (url mime padding params : string) :
  JSString.startsWith "image/" mime = true ->
  JSString.lacks ";"%char mime = true ->
  JSString.trimEnd mime = mime ->
  JSString.all_white_space padding = true ->
  Image.inferMimeType url (Some (mime +:+ padding)) = mime
  /\ Image.inferMimeType url
       (Some ((mime +:+ padding) +:+ String ";"%char params)) = mime.
Proof.
  intros Himage Hsemi Hend Hpad.
  apply prefix_split in Himage as [rest ->].
  assert (Htrim : JSString.trim (("image/" +:+ rest) +:+ padding)
                  = "image/" +:+ rest).
  { change (("image/" +:+ rest) +:+ padding)
      with ("image/" +:+ (rest +:+ padding)).
    rewrite trim_image.
    change ("image/" +:+ (rest +:+ padding))
      with (("image/" +:+ rest) +:+ padding).
    now rewrite trimEnd_app_white. }
  assert (Hlacks : JSString.lacks ";"%char (("image/" +:+ rest) +:+ padding)
                   = true).
  { rewrite lacks_app, Hsemi. simpl.
    now apply white_space_lacks. }
  unfold Image.inferMimeType, JSString.startsWith. split.
  - rewrite (prefix_app "image/" (rest +:+ padding)
             : String.prefix "image/" (("image/" +:+ rest) +:+ padding)
               = true).
    now rewrite (split_lacks _ _ Hlacks).
  - rewrite (prefix_app "image/"
               ((rest +:+ padding) +:+ String ";"%char params)
             : String.prefix "image/"
                 ((("image/" +:+ rest) +:+ padding) +:+ String ";"%char params)
               = true).
    now rewrite (first_part_before _ _ _ Hlacks).
Qed.

Lemma content_type_decides_the_mime_type_witness :
  Image.inferMimeType "https://example.com/image.gif"
    (Some "image/webp ; charset=utf-8") = "image/webp".
Proof.
  exact (proj2 (content_type_decides_the_mime_type
                  "https://example.com/image.gif" "image/webp" " "
                  " charset=utf-8" eq_refl eq_refl eq_refl eq_refl)).
Defined.

(** X19: without an [image/] content type only the text after the last
    [.] of the URL counts, up to its first [?] and whatever its case.  A
    query string after the extension is ignored as long as it has no [.]
    itself; a [.] in the query string takes the extension's place. *)
Theorem extension_is_what_follows_the_last_dot
    (base tail : string) (contentType : option string) :
  JSString.lacks "."%char tail = true ->
  match contentType with
  | Some ct => JSString.startsWith "image/" ct = false
  | None => True
  end ->
  Image.inferMimeType (base +:+ String "."%char tail) contentType
  = Image.mime_of_extension
      (JSString.toLowerCase
         (JSString.first_part (JSString.split "?"%char tail)))
  /\ (forall ext query,
        tail = ext +:+ String "?"%char query ->
        JSString.lacks "?"%char ext = true ->
        Image.inferMimeType (base +:+ String "."%char tail) contentType
        = Image.mime_of_extension (JSString.toLowerCase ext)).
Proof.
  intros Htail Hct.
  assert (Hinfer : Image.inferMimeType (base +:+ String "."%char tail)
                     contentType
                   = Image.mime_of_extension
                       (JSString.toLowerCase
                          (JSString.first_part
                             (JSString.split "?"%char tail)))).
  { unfold Image.inferMimeType, Image.extension.
    rewrite (last_part_after _ _ _ Htail).
    destruct contentType as [ct |]; [now rewrite Hct | reflexivity]. }
  split; [exact Hinfer |].
  intros ext query -> Hext. rewrite Hinfer.
  now rewrite (first_part_before _ _ _ Hext).
Qed.

Lemma extension_is_what_follows_the_last_dot_witness :
  Image.inferMimeType "https://example.com/anim.GIF?v=2" None = "image/gif"
  /\ Image.inferMimeType "https://example.com/photo.jpg?v=1.2"
       (Some "text/html") = "image/png".
Proof.
  split.
  - exact (proj2 (extension_is_what_follows_the_last_dot
                    "https://example.com/anim" "GIF?v=2" None eq_refl I)
             "GIF" "v=2" eq_refl eq_refl).
  - exact (proj1 (extension_is_what_follows_the_last_dot
                    "https://example.com/photo.jpg?v=1" "2"
                    (Some "text/html") eq_refl eq_refl)).
Defined.

Section MimeRange.

Lemma trimEnd_image rest :
  exists rest',
    JSString.trimEnd ("image/" +:+ rest) = "image/" +:+ rest'.
Proof.
  exists (JSString.trimEnd rest).
  change ("image/" +:+ rest)
    with (String "i" (String "m" (String "a" (String "g" (String "e"
            (String "/" rest)))))).
  now rewrite !trimEnd_cons by reflexivity.
Qed.

Lemma first_part_image sep rest :
  sep <> "i"%char -> sep <> "m"%char -> sep <> "a"%char ->
  sep <> "g"%char -> sep <> "e"%char -> sep <> "/"%char ->
  exists rest',
    JSString.first_part (JSString.split sep ("image/" +:+ rest))
    = "image/" +:+ rest'.
Proof.
  intros Hi Hm Ha Hg He Hs.
  exists (JSString.first_part (JSString.split sep rest)).
  change ("image/" +:+ rest)
    with (String "i" (String "m" (String "a" (String "g" (String "e"
            (String "/" rest)))))).
  simpl. rewrite !decide_False by congruence.
  destruct (JSString.split sep rest) as [| piece pieces] eqn:Hsplit;
    [now apply split_not_nil in Hsplit | reflexivity].
Qed.

Lemma mime_of_extension_range ext :
  Image.mime_of_extension ext
  ∈ ["image/png"; "image/jpeg"; "image/gif"; "image/webp"; "image/svg+xml"].
Proof.
  unfold Image.mime_of_extension.
  repeat case_decide; apply list_elem_of_In; simpl; auto 10.
Qed.

Lemma inferMimeType_image (url : string) (contentType : option string) :
  JSString.startsWith "image/" (Image.inferMimeType url contentType) = true.
Proof.
  assert (Hprefix : forall ext,
             JSString.startsWith "image/" (Image.mime_of_extension ext)
             = true).
  { intros ext. unfold Image.mime_of_extension.
    repeat case_decide; reflexivity. }
  unfold Image.inferMimeType.
  destruct contentType as [ct |]; [| apply Hprefix].
  destruct (JSString.startsWith "image/" ct) eqn:Hct; [| apply Hprefix].
  apply prefix_split in Hct as [rest ->].
  destruct (first_part_image ";"%char rest) as [rest1 ->];
    try discriminate.
  rewrite trim_image.
  destruct (trimEnd_image rest1) as [rest2 ->]. apply prefix_app.
Qed.

End MimeRange.

(** X20: [inferMimeType] always answers with an image type: the result
    starts with [image/] for every URL and every content type, a
    non-image content type such as [text/html] included, and without an
    [image/] content type it is one of the five types of the [switch]. *)
Theorem inferMimeType_is_always_an_image_type
    (url : string) (contentType : option string) :
  JSString.startsWith "image/" (Image.inferMimeType url contentType) = true
  /\ (match contentType with
      | Some ct => JSString.startsWith "image/" ct = false
      | None => True
      end ->
      Image.inferMimeType url contentType
      ∈ ["image/png"; "image/jpeg"; "image/gif"; "image/webp";
         "image/svg+xml"]).
Proof.
  split; [apply inferMimeType_image |].
  unfold Image.inferMimeType.
  intros Hct. destruct contentType as [ct |];
    [rewrite Hct |]; apply mime_of_extension_range.
Qed.

(** X21: whatever the platform does, a string [fetchImage] returns is a
    base64 data URI of an image type: [data:], a MIME type that starts
    with [image/], [;base64,], and the base64 text of a buffer; this
    holds also when the server sent a content type that is not an image
    type. *)
Theorem fetchImage_returns_an_image_data_uri
    {Env Data PErr Sharp : Type} (P : Image.Platform Env Data PErr Sharp)
    (url : string) (options : Image.FetchImageOptions) (e e' : Env)
    (uri : string) :
  Image.fetchImage P url options e = (FontLoader.Return uri, e') ->
  exists mimeType buffer,
    uri = "data:" +:+ mimeType +:+ ";base64," +:+ Image.base64 P buffer
    /\ JSString.startsWith "image/" mimeType = true.
Proof.
  assert (Huri : forall mimeType buffer,
             Image.data_uri P mimeType buffer
             = "data:" +:+ mimeType +:+ ";base64,"
               +:+ Image.base64 P buffer).
  { intros mimeType buffer. unfold Image.data_uri, Font.template. simpl.
    now rewrite append_empty_r. }
  unfold Image.fetchImage. intros Hcall.
  destruct (Image.fetch P url e) as [[response | reason] e1];
    [| discriminate].
  destruct (Image.ok response); cbn [negb] in Hcall; [| discriminate].
  destruct (Image.arrayBuffer response) as [buffer | reason];
    [| discriminate].
  destruct (Image.truthy_number (Image.width options)
            || Image.truthy_number (Image.height options)).
  - destruct (Image.import_sharp P e1) as [[sharp |] e2].
    + destruct (Image.resize_to_png P sharp buffer _ _ e2)
        as [[resized | reason] e3]; [| discriminate].
      injection Hcall as <- _. exists "image/png", resized.
      split; [apply Huri | reflexivity].
    + injection Hcall as <- _. eexists _, buffer.
      split; [apply Huri | apply inferMimeType_image].
  - injection Hcall as <- _. eexists _, buffer.
    split; [apply Huri | apply inferMimeType_image].
Qed.

Lemma fetchImage_returns_an_image_data_uri_witness :
  let P := Mock.image_platform
             (Image.mkResponse true 200 EmptyString (Some "text/html")
                (FontLoader.Fulfilled "mystery-data")) in
  Image.fetchImage P "https://example.com/image"
    (Image.mkImageOptions None (Some 0)) 0
  = (FontLoader.Return "data:image/png;base64,mystery-data", 1)
  /\ exists mimeType buffer,
       "data:image/png;base64,mystery-data"
       = "data:" +:+ mimeType +:+ ";base64," +:+ Image.base64 P buffer
       /\ JSString.startsWith "image/" mimeType = true.
Proof.
  intros P.
  assert (Hcall : Image.fetchImage P "https://example.com/image"
                    (Image.mkImageOptions None (Some 0)) 0
                  = (FontLoader.Return "data:image/png;base64,mystery-data",
                     1))
    by (vm_compute; reflexivity).
  split; [exact Hcall |].
  exact (fetchImage_returns_an_image_data_uri P _ _ _ _ _ Hcall).
Defined.
